(** * Mutsumi asset scripts: a shallow embedding and its properties

    Two unrelated scripts live under [assets/]:

    - [assets/test.py]: [white_to_transparent], which rewrites the pure-white
      pixels of an image to transparent ones and saves the result as PNG;
    - [assets/tree-sitter/download_wasm.py]: [download_file] and [main],
      which fetch a fixed list of grammar binaries through a pool of five
      worker threads.

    The first is embedded in a state-and-exception monad over a small file
    system, the second as programs over I/O actions that a pool interleaves
    one action at a time. The image codec (PIL), the HTTP client and the
    thread pool are outside the repository: the codec and the network are
    inputs of the model, the pool is a step relation.

    The file has three parts: the embedding of the two scripts, the
    vocabulary of the statements, and the properties. *)

From Stdlib Require Import ZArith Lia Ascii String.
From stdpp Require Import base tactics option list relations strings gmap.

Open Scope Z_scope.

(** ** Python strings and [posixpath]

    A Python [str] is modelled by [string].  The separators the path
    functions look for are ASCII, so working on UTF-8 bytes instead of code
    points does not change where they are found. *)

Module PyStr.

(** [len(s)] *)
Definition len (s : string) : Z := Z.of_nat (String.length s).

Fixpoint take (n : nat) (s : string) : string :=
  match n, s with
  | O, _ => EmptyString
  | S _, EmptyString => EmptyString
  | S n', String a s' => String a (take n' s')
  end.

Fixpoint drop (n : nat) (s : string) : string :=
  match n, s with
  | O, _ => s
  | S _, EmptyString => EmptyString
  | S n', String _ s' => drop n' s'
  end.

(** Slice bounds are clamped the way Python does: a negative bound counts
    from the end, and everything is cut to [0 .. len]. *)
Definition clamp (i n : Z) : Z :=
  if i <? 0 then Z.max 0 (n + i) else Z.min i n.

(** [s[lo:hi]] *)
Definition slice (s : string) (lo hi : Z) : string :=
  let lo' := clamp lo (len s) in
  let hi' := clamp hi (len s) in
  take (Z.to_nat (hi' - lo')) (drop (Z.to_nat lo') s).

(** [s[:hi]] and [s[lo:]] *)
Definition slice_to (s : string) (hi : Z) : string := slice s 0 hi.
Definition slice_from (s : string) (lo : Z) : string := slice s lo (len s).

(** [s.rfind(c)] for a one-character [c]: the highest index holding [c],
    or [-1]. The scan keeps the position [i] of the current character and
    the last match seen so far. *)
Fixpoint rfind_go (c : ascii) (s : string) (i last : Z) : Z :=
  match s with
  | EmptyString => last
  | String a s' => rfind_go c s' (i + 1) (if Ascii.eqb a c then i else last)
  end.

Definition rfind (s : string) (c : ascii) : Z := rfind_go c s 0 (-1).

(** [s.startswith(c)] and [s.endswith(c)] for a one-character [c] *)
Definition startswith (s : string) (c : ascii) : bool :=
  match s with
  | String a _ => Ascii.eqb a c
  | EmptyString => false
  end.

Fixpoint endswith (s : string) (c : ascii) : bool :=
  match s with
  | EmptyString => false
  | String a EmptyString => Ascii.eqb a c
  | String _ s' => endswith s' c
  end.

(** [c * n] *)
Fixpoint repeat (c : ascii) (n : nat) : string :=
  match n with
  | O => EmptyString
  | S n' => String c (repeat c n')
  end.

(** [s.rstrip(c)] for a one-character [c] *)
Fixpoint rstrip (s : string) (c : ascii) : string :=
  match s with
  | EmptyString => EmptyString
  | String a s' =>
      match rstrip s' c with
      | EmptyString => if Ascii.eqb a c then EmptyString else String a EmptyString
      | r => String a r
      end
  end.

(** truthiness of a string: [bool(s)] *)
Definition nonempty (s : string) : bool :=
  match s with EmptyString => false | _ => true end.

End PyStr.

Module os_path.

Definition sep : ascii := "/"%char.
Definition extsep : ascii := "."%char.

(** The [while] loop of [genericpath._splitext]: it walks [filenameIndex]
    up to [dotIndex] and returns at the first character that is not a dot.
    [None] stands for leaving the loop without returning. The counter [n]
    is the number of iterations left, [dotIndex - filenameIndex]. *)
Fixpoint splitext_loop (n : nat) (p : string) (filenameIndex dotIndex : Z)
  : option (string * string) :=
  match n with
  | O => None
  | S n' =>
      if negb (String.eqb (PyStr.slice p filenameIndex (filenameIndex + 1))
                          (String extsep EmptyString))
      then Some (PyStr.slice_to p dotIndex, PyStr.slice_from p dotIndex)
      else splitext_loop n' p (filenameIndex + 1) dotIndex
  end.

(** [os.path.splitext] on POSIX ([altsep] is [None]). *)
Definition splitext (p : string) : string * string :=
  let sepIndex := PyStr.rfind p sep in
  let dotIndex := PyStr.rfind p extsep in
  let fallthrough := (p, PyStr.slice_to p 0) in
  if sepIndex <? dotIndex then
    let filenameIndex := sepIndex + 1 in
    match splitext_loop (Z.to_nat (dotIndex - filenameIndex)) p filenameIndex dotIndex with
    | Some r => r
    | None => fallthrough
    end
  else fallthrough.

(** [os.path.dirname] on POSIX. *)
Definition dirname (p : string) : string :=
  let i := PyStr.rfind p sep + 1 in
  let head := PyStr.slice_to p i in
  if PyStr.nonempty head
     && negb (String.eqb head (PyStr.repeat sep (String.length head)))
  then PyStr.rstrip head sep
  else head.

(** [os.path.basename] on POSIX. *)
Definition basename (p : string) : string :=
  PyStr.slice_from p (PyStr.rfind p sep + 1).

(** [os.path.join(a, b)] on POSIX. *)
Definition join (a b : string) : string :=
  if PyStr.startswith b sep then b
  else if negb (PyStr.nonempty a) || PyStr.endswith a sep then a +:+ b
  else a +:+ String sep EmptyString +:+ b.

End os_path.

(** ** The pixel transparency converter ([assets/test.py]) *)

Module Converter.

(** An item of [img.getdata()] of an RGBA image: the tuple [(R, G, B, A)]. *)
Abbreviation pixel := (Z * Z * Z * Z)%type.

(** A decoded image file, before [convert("RGBA")]: its mode decides
    whether the pixels carry an alpha channel. *)
Inductive raw_image :=
| ImageRGB (width height : Z) (data : list (Z * Z * Z))
| ImageRGBA (width height : Z) (data : list pixel).

(** The image object the function works on after the conversion. *)
Record image := Image { width : Z; height : Z; pixels : list pixel }.

(** Modelled from the spec: PIL's [Image.convert("RGBA")] is not part of
    the repository. "If the source image has no alpha channel, synthesize
    a fully-opaque one, alpha=255"; an image that has one is kept. *)
Definition convert_RGBA (raw : raw_image) : image :=
  match raw with
  | ImageRGB w h data => Image w h (map (λ '(r, g, b), (r, g, b, 255)) data)
  | ImageRGBA w h data => Image w h data
  end.

Definition getdata (img : image) : list pixel := pixels img.

(** [img.putdata(new_data)]; the list always has as many items as the
    image has pixels and every channel is already an 8-bit value. *)
Definition putdata (img : image) (new_data : list pixel) : image :=
  Image (width img) (height img) new_data.

(** The body of the [for item in datas] loop: one [append] to [new_data]. *)
Definition loop_body (new_data : list pixel) (item : pixel) : list pixel :=
  let '(r, g, b, _) := item in
  if (r =? 255) && (g =? 255) && (b =? 255)
  then new_data ++ [(255, 255, 255, 0)]
  else new_data ++ [item].

(** [new_data = []; for item in datas: ...] *)
Definition transparent_pixels (datas : list pixel) : list pixel :=
  fold_left loop_body datas [].

(** Python values that may be passed as [output_path]. *)
Inductive pyval :=
| PyNone
| PyBool (b : bool)
| PyInt (z : Z)
| PyStr (s : string).

(** [bool(v)], as [not output_path] evaluates it. *)
Definition truthy (v : pyval) : bool :=
  match v with
  | PyNone => false
  | PyBool b => b
  | PyInt z => negb (z =? 0)
  | PyStr s => PyStr.nonempty s
  end.

(** [str(v)], as an f-string formats it. *)
Definition format (v : pyval) : string :=
  match v with
  | PyNone => "None"
  | PyBool true => "True"
  | PyBool false => "False"
  | PyInt z => pretty.pretty z
  | PyStr s => s
  end.

(** What a path of the file system holds. Image files are kept as their
    decoded grid: PNG encoding is lossless and a function of the grid, so
    two stored images are the same bytes exactly when they are equal. *)
Inductive node :=
| Directory
| ImageFile (img : raw_image)
| OtherFile (content : string).

(** What the outside can observe of a run, in order: a printed line, an
    attempt to decode a file, a file written by the encoder. *)
Inductive event :=
| Printed (line : string)
| Decoded (path : string)
| Encoded (path : string).

(** The file system, what has been observed so far, and the names bound
    at module level. *)
Record world := World {
  fs : gmap string node;
  trace : list event;
  globals : gset string
}.

Inductive exn :=
| NameError (name : string)
| FileNotFoundError (path : string)
| IsADirectoryError (path : string)
| NotADirectoryError (path : string)
| UnidentifiedImageError (path : string)
| AttributeError (msg : string).

Inductive outcome (A : Type) :=
| Returned (a : A)
| Raised (e : exn).
Arguments Returned {A} a.
Arguments Raised {A} e.

(** Statements: they read and change the world and either return or raise. *)
Definition M (A : Type) : Type := world → outcome A * world.

Definition ret {A} (a : A) : M A := λ w, (Returned a, w).

Definition bind {A B} (m : M A) (k : A → M B) : M B :=
  λ w, match m w with
       | (Returned a, w') => k a w'
       | (Raised e, w') => (Raised e, w')
       end.

Definition raise {A} (e : exn) : M A := λ w, (Raised e, w).

Declare Scope py_scope.
Delimit Scope py_scope with py.
Notation "x <- m ;; k" := (bind m (λ x, k))
  (at level 100, m at next level, right associativity) : py_scope.
Notation "m ;; k" := (bind m (λ _, k))
  (at level 100, right associativity) : py_scope.
Open Scope py_scope.

Definition emit (ev : event) : M unit :=
  λ w, (Returned tt, World (fs w) (trace w ++ [ev]) (globals w)).

Definition print (line : string) : M unit := emit (Printed line).

Definition os_path_exists (path : string) : M bool :=
  λ w, (Returned (bool_decide (is_Some (fs w !! path))), w).

(** [Image.open(path).convert("RGBA")]; the attempt is recorded whether
    or not the file can be decoded. *)
Definition Image_open_convert (path : string) : M image :=
  λ w, let w' := World (fs w) (trace w ++ [Decoded path]) (globals w) in
       match fs w !! path with
       | Some (ImageFile raw) => (Returned (convert_RGBA raw), w')
       | Some (OtherFile _) => (Raised (UnidentifiedImageError path), w')
       | Some Directory => (Raised (IsADirectoryError path), w')
       | None => (Raised (FileNotFoundError path), w')
       end.

(** *** Opening a path for writing

    [img.save] opens its path with [open(path, "w+b")]. Whether the
    system lets it depends on the path and on what the disk holds. Paths
    are taken as they are spelled, every directory is taken to be writable,
    and names are taken to be free of NUL and within the limits of the
    file system. *)

Definition is_directory (n : option node) : bool :=
  match n with Some Directory => true | _ => false end.

(** Directories that are there whatever the disk holds: the working
    directory (an empty directory part, or [.]), its parent, and the root. *)
Definition always_there (d : string) : bool :=
  String.eqb d "" || String.eqb d "." || String.eqb d ".."
  || String.eqb d (PyStr.repeat "/" (String.length d)).

(** The directories above a path: its directory, the directory of that
    one, and so on. Each is shorter than the one before until the empty
    or the root directory is reached, so [n], the length of the path,
    bounds their number. *)
Fixpoint ancestors (n : nat) (p : string) : list string :=
  match n with
  | O => []
  | S n' => os_path.dirname p :: ancestors n' (os_path.dirname p)
  end.

(** A directory is there when the disk lists it as one, and also when the
    disk lists a path that lies below it. *)
Definition directory_there (files : gmap string node) (d : string) : bool :=
  always_there d
  || is_directory (files !! d)
  || existsb (λ kn, existsb (String.eqb d) (ancestors (String.length kn.1) kn.1))
             (map_to_list files).

(** The directory a path lies in as the system resolves it: separators at
    the end of the path do not count. *)
Definition parent (path : string) : string :=
  os_path.dirname (PyStr.rstrip path "/").

(** A path that can only name a directory: it ends in a separator, or its
    last component is [.] or [..]. *)
Definition names_directory (path : string) : bool :=
  PyStr.endswith path "/"
  || String.eqb (os_path.basename path) "."
  || String.eqb (os_path.basename path) "..".

(** Why a directory that is not there cannot be entered: a regular file
    is in the way ([ENOTDIR]), or nothing is there ([ENOENT]). The search
    goes up from [d] until it meets a directory that is there. *)
Fixpoint missing_directory (n : nat) (files : gmap string node) (d path : string) : exn :=
  match files !! d with
  | Some (ImageFile _) | Some (OtherFile _) => NotADirectoryError path
  | _ =>
      match n with
      | O => FileNotFoundError path
      | S n' =>
          if directory_there files (os_path.dirname d) then FileNotFoundError path
          else missing_directory n' files (os_path.dirname d) path
      end
  end.

(** The exception [open(path, "w+b")] raises, if it raises: for the empty
    path, for a directory in place of the path, for a directory part that
    does not lead to a directory, and for a path that can only name a
    directory. *)
Definition open_refusal (files : gmap string node) (path : string) : option exn :=
  if negb (PyStr.nonempty path) then Some (FileNotFoundError path)
  else if is_directory (files !! path) then Some (IsADirectoryError path)
  else if negb (directory_there files (parent path))
  then Some (missing_directory (String.length path) files (parent path) path)
  else if names_directory path then Some (IsADirectoryError path)
  else None.
Arguments open_refusal : simpl never.

(** [img.save(fp, "PNG")]. A [str] is a path to open for writing, and
    nothing is written when it cannot be opened; any other value of
    [pyval] is taken for a file object and fails on its missing [write]. *)
Definition save (img : image) (fp : pyval) : M unit :=
  λ w, match fp with
       | PyStr path =>
           match open_refusal (fs w) path with
           | Some e => (Raised e, w)
           | None =>
               (Returned tt,
                World (<[path := ImageFile (ImageRGBA (width img) (height img) (pixels img))]> (fs w))
                      (trace w ++ [Encoded path]) (globals w))
           end
       | _ => (Raised (AttributeError "write"), w)
       end.

Definition white_to_transparent (input_path : string) (output_path : pyval) : M pyval :=
  found <- os_path_exists input_path ;;
  if negb found then
    print ("错误: 找不到文件 '" +:+ input_path +:+ "'") ;;
    ret PyNone
  else
    print ("正在处理: " +:+ input_path +:+ " ...") ;;
    img <- Image_open_convert input_path ;;
    let datas := getdata img in
    let new_data := transparent_pixels datas in
    let img := putdata img new_data in
    let output_path :=
      if negb (truthy output_path) then
        let '(f_name, f_ext) := os_path.splitext input_path in
        PyStr (f_name +:+ "_transparent.png")
      else output_path in
    save img output_path ;;
    print ("成功! 输出文件已保存至: " +:+ format output_path) ;;
    ret PyNone.

(** The [def] statement binds the name in the module's globals. *)
Definition def (name : string) : M unit :=
  λ w, (Returned tt, World (fs w) (trace w) ({[name]} ∪ globals w)).

(** The call on the last line of the module: the name is looked up in the
    globals when the line runs. *)
Definition call_white_to_transparent (input_path : string) : M pyval :=
  λ w, if bool_decide ("white_to_transparent" ∈ globals w)
       then white_to_transparent input_path PyNone w
       else (Raised (NameError "white_to_transparent"), w).

(** Running [test.py] as a script. [pil_importable] tells whether
    [from PIL import Image] succeeds. *)
Definition test_module (pil_importable : bool) : M pyval :=
  (if pil_importable then
     def "white_to_transparent" ;;
     print (PyStr.repeat "-" 40) ;;
     print "环境检查完毕。函数 'white_to_transparent' 已就绪。" ;;
     print "请直接输入以下命令调用（替换为你自己的文件路径）:" ;;
     print "white_to_transparent('image.png')" ;;
     print (PyStr.repeat "-" 40)
   else
     print "错误: 未检测到 PIL/Pillow 库。请先运行: pip install Pillow") ;;
  call_white_to_transparent "sidebar-icon.png".

(** A fresh interpreter: nothing printed, no module-level name bound. *)
Definition fresh (files : gmap string node) : world := World files [] ∅.

End Converter.

(** ** The concurrent asset fetcher ([assets/tree-sitter/download_wasm.py]) *)

Module Fetcher.

Definition BASE_URL : string := "https://unpkg.com/tree-sitter-wasms@0.1.13/out/".
Definition OUTPUT_DIR : string := ".".

Definition FILES : list string := [
  "tree-sitter-bash.wasm";
  "tree-sitter-c.wasm";
  "tree-sitter-c_sharp.wasm";
  "tree-sitter-cpp.wasm";
  "tree-sitter-css.wasm";
  "tree-sitter-dart.wasm";
  "tree-sitter-elisp.wasm";
  "tree-sitter-elixir.wasm";
  "tree-sitter-elm.wasm";
  "tree-sitter-embedded_template.wasm";
  "tree-sitter-go.wasm";
  "tree-sitter-html.wasm";
  "tree-sitter-java.wasm";
  "tree-sitter-javascript.wasm";
  "tree-sitter-json.wasm";
  "tree-sitter-kotlin.wasm";
  "tree-sitter-lua.wasm";
  "tree-sitter-objc.wasm";
  "tree-sitter-ocaml.wasm";
  "tree-sitter-php.wasm";
  "tree-sitter-python.wasm";
  "tree-sitter-ql.wasm";
  "tree-sitter-rescript.wasm";
  "tree-sitter-ruby.wasm";
  "tree-sitter-rust.wasm";
  "tree-sitter-scala.wasm";
  "tree-sitter-solidity.wasm";
  "tree-sitter-swift.wasm";
  "tree-sitter-systemrdl.wasm";
  "tree-sitter-tlaplus.wasm";
  "tree-sitter-toml.wasm";
  "tree-sitter-tsx.wasm";
  "tree-sitter-typescript.wasm";
  "tree-sitter-vue.wasm";
  "tree-sitter-yaml.wasm";
  "tree-sitter-zig.wasm"
].

Definition max_workers : nat := 5.

Abbreviation bytes := (list Byte.byte).

(** What a call into the outside gives back: a value, or an exception
    (a subclass of [Exception]) of which only [str(e)] is kept. Every call
    comes back one way or the other; a connection that hangs forever is
    outside this model. *)
Inductive io_result (A : Type) :=
| Ok (a : A)
| Err (e : string).
Arguments Ok {A} a.
Arguments Err {A} e.

(** [urllib.request.Request(url, data=None, headers={...})] *)
Record request := Request {
  full_url : string;
  post_data : option bytes;
  headers : list (string * string)
}.

(** The object [urlopen] returns; [read] is what [response.read()] does. *)
Record response := Response { read : io_result bytes }.

(** How the outside behaves during one run: the network per request, the
    disk per path. [disk_write p = Some (n, e)] is a write that raises [e] once
    [n] bytes have reached the file. *)
Record env := Env {
  urlopen : request → io_result response;
  disk_open : string → option string;
  disk_write : string → option (nat * string);
  makedirs : string → option string
}.

(** What a run can change: the files and directories on disk, the lines
    printed so far, and the URLs a GET has been issued for, in order. *)
Record world := World {
  fs : gmap string bytes;
  dirs : gset string;
  console : list string;
  requests : list string
}.

(** The calls of [download_file] into the outside. A file object is known
    by the path it was opened on. *)
Inductive action : Type → Type :=
| Print (line : string) : action unit
| Urlopen (req : request) : action response
| Open_wb (path : string) : action unit
| Read (r : response) : action bytes
| Write (path : string) (data : bytes) : action unit.

(** What the call returns or raises. *)
Definition result (E : env) {X} (a : action X) : io_result X :=
  match a in action X return io_result X with
  | Print _ => Ok tt
  | Urlopen req => urlopen E req
  | Open_wb path =>
      match disk_open E path with Some e => Err e | None => Ok tt end
  | Read r => read r
  | Write path _ =>
      match disk_write E path with Some (_, e) => Err e | None => Ok tt end
  end.

Definition set_fs (w : world) (m : gmap string bytes) : world :=
  World m (dirs w) (console w) (requests w).

(** What the call does to the world. Opening with mode ['wb'] creates the
    file or truncates it; a write appends to what the file holds. *)
Definition effect (E : env) {X} (a : action X) (w : world) : world :=
  match a with
  | Print line => World (fs w) (dirs w) (console w ++ [line]) (requests w)
  | Urlopen req => World (fs w) (dirs w) (console w) (requests w ++ [full_url req])
  | Open_wb path =>
      match disk_open E path with
      | Some _ => w
      | None => set_fs w (<[path := []]> (fs w))
      end
  | Read _ => w
  | Write path data =>
      let old := default [] (fs w !! path) in
      match disk_write E path with
      | Some (n, _) => set_fs w (<[path := old ++ take n data]> (fs w))
      | None => set_fs w (<[path := old ++ data]> (fs w))
      end
  end.

(** Python code as a tree of calls: each node hands the call's outcome to
    the rest of the code. *)
Inductive prog (A : Type) : Type :=
| Ret (a : A)
| Raise (e : string)
| Act {X : Type} (a : action X) (k : io_result X → prog A).
Arguments Ret {A} a.
Arguments Raise {A} e.
Arguments Act {A X} a k.

(** A call whose exception propagates. *)
Definition call {X} (a : action X) : prog X :=
  Act a (λ r, match r with Ok x => Ret x | Err e => Raise e end).

Fixpoint bind {A B} (m : prog A) (f : A → prog B) : prog B :=
  match m with
  | Ret a => f a
  | Raise e => Raise e
  | Act a k => Act a (λ r, bind (k r) f)
  end.

(** [try: m except Exception as e: h(e)] *)
Fixpoint try_except {A} (m : prog A) (h : string → prog A) : prog A :=
  match m with
  | Ret a => Ret a
  | Raise e => h e
  | Act a k => Act a (λ r, try_except (k r) h)
  end.

Declare Scope prog_scope.
Delimit Scope prog_scope with prog.
Notation "x <- m ;; k" := (bind m (λ x, k))
  (at level 100, m at next level, right associativity) : prog_scope.
Notation "m ;; k" := (bind m (λ _, k))
  (at level 100, right associativity) : prog_scope.
Open Scope prog_scope.

Definition url_of (filename : string) : string := BASE_URL +:+ filename.
Definition path_of (filename : string) : string := os_path.join OUTPUT_DIR filename.

Definition user_agent : string := "Mozilla/5.0 (compatible; TreeSitterDownloader/1.0)".

(** The request [download_file] builds for a file. *)
Definition request_of (filename : string) : request :=
  Request (url_of filename) None [("User-Agent", user_agent)].

Definition starting_line (filename : string) : string :=
  "Starting: " +:+ filename +:+ "...".
Definition success_line (filename : string) : string :=
  "✅ Success: " +:+ filename.
Definition failed_line (filename e : string) : string :=
  "❌ Failed: " +:+ filename +:+ " - Error: " +:+ e.

(** [download_file]. Building the [Request] object cannot fail: the URL
    starts with the scheme of [BASE_URL]. Leaving the [with] block closes
    both objects, which changes nothing in this world. *)
Definition download_file (filename : string) : prog bool :=
  let url := url_of filename in
  let filepath := path_of filename in
  try_except
    (call (Print (starting_line filename)) ;;
     let req := Request url None [("User-Agent", user_agent)] in
     response <- call (Urlopen req) ;;
     call (Open_wb filepath) ;;
     let out_file := filepath in
     data <- call (Read response) ;;
     call (Write out_file data) ;;
     call (Print (success_line filename)) ;;
     Ret true)
    (λ e,
       call (Print (failed_line filename e)) ;;
       Ret false).

(** Running a piece of code alone, from start to end. *)
Fixpoint run {A} (E : env) (p : prog A) (w : world) : io_result A * world :=
  match p with
  | Ret a => (Ok a, w)
  | Raise e => (Err e, w)
  | Act a k => run E (k (result E a)) (effect E a w)
  end.

(** The calls a piece of code makes when it runs, in order. *)
Inductive some_action :=
| Some_action {X : Type} (a : action X).

Fixpoint script {A} (E : env) (p : prog A) : list some_action :=
  match p with
  | Ret _ | Raise _ => []
  | Act a k => Some_action a :: script E (k (result E a))
  end.

(** [os.path.exists] and [print], as [main] itself uses them. *)
Definition os_path_exists (w : world) (path : string) : bool :=
  bool_decide (path ∈ dirs w) || bool_decide (is_Some (fs w !! path)).

Definition print (line : string) (w : world) : world :=
  World (fs w) (dirs w) (console w ++ [line]) (requests w).

Definition newline : string := String (ascii_of_nat 10) EmptyString.

Definition downloading_line : string :=
  "Downloading " +:+ pretty.pretty (length FILES) +:+ " files from "
    +:+ BASE_URL +:+ "..." +:+ newline.
Definition completed_line : string := newline +:+ "All tasks completed.".

(** [main] up to the [with] statement. *)
Definition setup (E : env) (w : world) : io_result unit * world :=
  let created :=
    if negb (os_path_exists w OUTPUT_DIR) then
      match makedirs E OUTPUT_DIR with
      | Some e => (Err e, w)
      | None =>
          (Ok tt,
           print ("Created directory: " +:+ OUTPUT_DIR)
             (World (fs w) ({[OUTPUT_DIR]} ∪ dirs w) (console w) (requests w)))
      end
    else (Ok tt, w) in
  match created with
  | (Ok _, w1) => (Ok tt, print downloading_line w1)
  | (Err e, w1) => (Err e, w1)
  end.

(** The state of [main] from the [with] statement on. While the pool is
    alive: the work items not yet taken, the calls of [download_file] the
    worker threads are in (with the code each has left), the futures
    already resolved, and the world. [executor.map] queues one work item
    per element of its argument before the block is left. *)
Inductive state :=
| Pooling (queue : list string) (running : list (string * prog bool))
          (resolved : list (string * io_result bool)) (w : world)
| Done (r : io_result unit) (w : world).

Inductive choice :=
| Dispatch          (* a free worker takes the next work item *)
| Work (i : nat)    (* worker [i] makes its next call, or ends its task *)
| Join.             (* [shutdown(wait=True)] returns; the last [print] runs *)

Definition step (E : env) (c : choice) (s : state) : option state :=
  match s with
  | Done _ _ => None
  | Pooling queue running resolved w =>
      match c with
      | Dispatch =>
          match queue with
          | filename :: queue' =>
              if bool_decide (length running < max_workers)%nat
              then Some (Pooling queue' (running ++ [(filename, download_file filename)])
                                 resolved w)
              else None
          | [] => None
          end
      | Work i =>
          match running !! i with
          | Some (filename, Act a k) =>
              Some (Pooling queue (<[i := (filename, k (result E a))]> running)
                            resolved (effect E a w))
          | Some (filename, Ret b) =>
              Some (Pooling queue (delete i running)
                            (resolved ++ [(filename, Ok b)]) w)
          | Some (filename, Raise e) =>
              Some (Pooling queue (delete i running)
                            (resolved ++ [(filename, Err e)]) w)
          | None => None
          end
      | Join =>
          match queue, running with
          | [], [] => Some (Done (Ok tt) (print completed_line w))
          | _, _ => None
          end
      end
  end.

(** One move of some thread. *)
Definition steps (E : env) (s s' : state) : Prop :=
  ∃ c, step E c s = Some s'.

(** Where [main] stands when it reaches the [with] statement, or where it
    ended if the lines before it raised. *)
Definition main_start (E : env) (w : world) : state :=
  match setup E w with
  | (Ok _, w1) => Pooling FILES [] [] w1
  | (Err e, w1) => Done (Err e) w1
  end.

(** A scheduler to run the pool with: it follows the given choices and
    skips those that are not enabled. *)
Fixpoint exec (E : env) (cs : list choice) (s : state) : state :=
  match cs with
  | [] => s
  | c :: cs' =>
      match step E c s with
      | Some s' => exec E cs' s'
      | None => exec E cs' s
      end
  end.

(** An empty working directory. *)
Definition empty_world : world := World ∅ {[OUTPUT_DIR]} [] [].

End Fetcher.

(** * Vocabulary of the statements

    The wording of the specification for the converter, the quantities and
    invariants the pool is measured with, and the concrete inputs the
    statements are tried on. *)

Section converter_vocabulary.
Import Converter.

(** What is appended to the input path without its extension. *)
Definition default_suffix : string := "_transparent.png".

(** The pixel rule in the words of the specification: a pixel whose first
    three channels are (255, 255, 255) becomes (255, 255, 255, 0), any
    other pixel is kept. *)
Definition spec_pixel (item : pixel) : pixel :=
  let '(r, g, b, a) := item in
  if decide (r = 255 ∧ g = 255 ∧ b = 255) then (255, 255, 255, 0) else (r, g, b, a).

(** Whether a character occurs in a string, and whether a string is made
    of that character only. *)
Fixpoint occurs (c : ascii) (s : string) : bool :=
  match s with
  | EmptyString => false
  | String a s' => Ascii.eqb a c || occurs c s'
  end.


(** [p.split("/")]: the components of a path. *)
Fixpoint components (p : string) : list string :=
  match p with
  | EmptyString => [EmptyString]
  | String a p' =>
      if Ascii.eqb a "/" then EmptyString :: components p'
      else match components p' with
           | c :: cs => String a c :: cs
           | [] => [String a EmptyString]
           end
  end.

(** What a component of a path has to be for a file of that name to be
    possible: not empty, not [.] or [..], free of NUL, and of at most 255
    bytes. *)
Definition file_name (c : string) : bool :=
  negb (String.eqb c "" || String.eqb c "." || String.eqb c "..")
  && negb (occurs "000" c)
  && (String.length c <=? 255)%nat.

(** A path spelled in the plain way: relative, every component a file
    name, at most 4095 bytes in all. Plain paths that differ name
    different files. *)
Definition plain (p : string) : bool :=
  forallb file_name (components p) && (String.length p <=? 4095)%nat.


(** The output path the specification describes: the explicit one, or the
    input without its extension followed by [_transparent.png]. *)
Definition spec_output (input_path : string) (output_path : pyval) : pyval :=
  if truthy output_path then output_path
  else PyStr ((os_path.splitext input_path).1 +:+ default_suffix).

(** The image file a successful run leaves at the output path. *)
Definition saved (raw : raw_image) : node :=
  let img := convert_RGBA raw in
  ImageFile (ImageRGBA (width img) (height img) (transparent_pixels (pixels img))).

(** What a successful run lets the outside see. *)
Definition run_trace (input_path out : string) : list event :=
  [Printed ("正在处理: " +:+ input_path +:+ " ...");
   Decoded input_path;
   Encoded out;
   Printed ("成功! 输出文件已保存至: " +:+ out)].

(** The 2x2 grid of the specification and a one-column RGB icon. *)
Definition grid_in : list pixel :=
  [(255, 255, 255, 255); (10, 20, 30, 255); (255, 255, 255, 100); (0, 0, 0, 255)].
Definition grid_out : list pixel :=
  [(255, 255, 255, 0); (10, 20, 30, 255); (255, 255, 255, 0); (0, 0, 0, 255)].

Definition grid_world : world :=
  fresh {["grid.png" := ImageFile (ImageRGBA 2 2 grid_in)]}.

Definition icon_world : world :=
  fresh {["icon.png" := ImageFile (ImageRGB 1 2 [(255, 255, 255); (1, 2, 3)])]}.

(** The same disk after the icon has been converted in place. *)
Definition icon_converted : world :=
  (white_to_transparent "icon.png" (PyStr "icon.png") icon_world).2.

(** The line printed before decoding, and the exception the decoder raises
    on what is no image. *)
Definition processing_line (input_path : string) : string :=
  "正在处理: " +:+ input_path +:+ " ...".

Definition decode_error (n : node) (path : string) : exn :=
  match n with
  | Directory => IsADirectoryError path
  | _ => UnidentifiedImageError path
  end.

(** A pixel that shows white: pure white with an alpha other than 0. *)
Definition visible_white (item : pixel) : Prop :=
  let '(r, g, b, a) := item in r = 255 ∧ g = 255 ∧ b = 255 ∧ a ≠ 0.

Definition is_white (item : pixel) : Prop :=
  let '(r, g, b, _) := item in r = 255 ∧ g = 255 ∧ b = 255.


(** A disk with a text file and a directory. *)
Definition notes_world : world :=
  fresh {["notes.txt" := OtherFile "hello"; "icons" := Directory;
          "icon.png" := ImageFile (ImageRGB 1 2 [(255, 255, 255); (1, 2, 3)])]}.


End converter_vocabulary.

Section fetcher_vocabulary.
Import Fetcher.
Local Open Scope nat_scope.

(** The exception one download runs into, if any, in the order of the calls
    that can raise: opening the URL, opening the local file, reading the
    body, writing it. *)
Definition first_error (E : env) (filename : string) : option string :=
  match urlopen E (request_of filename) with
  | Err e => Some e
  | Ok response =>
      match disk_open E (path_of filename) with
      | Some e => Some e
      | None =>
          match read response with
          | Err e => Some e
          | Ok _ =>
              match disk_write E (path_of filename) with
              | Some (_, e) => Some e
              | None => None
              end
          end
      end
  end.

(** The line that reports how the download ended. *)
Definition result_line (E : env) (filename : string) : string :=
  match first_error E filename with
  | None => success_line filename
  | Some e => failed_line filename e
  end.

(** A download in which nothing raises and the body is [data]. *)
Definition healthy (E : env) (filename : string) (data : bytes) : Prop :=
  urlopen E (request_of filename) = Ok (Response (Ok data))
  ∧ disk_open E (path_of filename) = None
  ∧ disk_write E (path_of filename) = None.

(** The path a call writes to. *)
Definition writes_to (a : some_action) : option string :=
  match a with
  | Some_action (Open_wb path) => Some path
  | Some_action (Write path _) => Some path
  | Some_action _ => None
  end.

(** Counting calls: one for a [print] of the given line, one for a request
    of the given URL, one for any request. *)
Definition is_print (line : string) (a : some_action) : nat :=
  match a with
  | Some_action (Print line') => if decide (line' = line) then 1 else 0
  | Some_action _ => 0
  end.

Definition is_get (url : string) (a : some_action) : nat :=
  match a with
  | Some_action (Urlopen req) => if decide (full_url req = url) then 1 else 0
  | Some_action _ => 0
  end.

Definition is_any_get (a : some_action) : nat :=
  match a with
  | Some_action (Urlopen _) => 1
  | Some_action _ => 0
  end.

Section with_env.
Variable E : env.

(** The result a task hands to its future once its code has ended. *)
Definition finished (p : prog bool) : option (io_result bool) :=
  match p with
  | Ret b => Some (Ok b)
  | Raise e => Some (Err e)
  | Act _ _ => None
  end.

(** The moves of [step], with the worker's position in the list of running
    tasks spelled out. *)
Inductive pool_step : state → state → Prop :=
| step_dispatch filename queue running resolved w :
    length running < max_workers →
    pool_step (Pooling (filename :: queue) running resolved w)
              (Pooling queue (running ++ [(filename, download_file filename)]) resolved w)
| step_call filename {X} (a : action X) k queue before after resolved w :
    pool_step (Pooling queue (before ++ (filename, Act a k) :: after) resolved w)
              (Pooling queue (before ++ (filename, k (result E a)) :: after) resolved
                       (effect E a w))
| step_finish filename p r queue before after resolved w :
    finished p = Some r →
    pool_step (Pooling queue (before ++ (filename, p) :: after) resolved w)
              (Pooling queue (before ++ after) (resolved ++ [(filename, r)]) w)
| step_join resolved w :
    pool_step (Pooling [] [] resolved w) (Done (Ok tt) (print completed_line w)).

(** Sums over lists of tasks. *)
Fixpoint total {A} (g : A → nat) (l : list A) : nat :=
  match l with
  | [] => 0
  | x :: l' => g x + total g l'
  end.

(** What the calls a task still has to make add up to, each call counted
    by [g]. *)
Definition weight (g : some_action → nat) (p : prog bool) : nat :=
  total g (script E p).

(** A quantity [obs] of the world plus what all calls still to come, of
    running and of waiting tasks, will add to it. *)
Definition potential (g : some_action → nat) (obs : world → nat) (s : state) : nat :=
  match s with
  | Pooling queue running resolved w =>
      obs w + total (λ t, weight g t.2) running
        + total (λ filename, weight g (download_file filename)) queue
  | Done _ w => obs w
  end.

(** The world of a state. *)
Definition world_of (s : state) : world :=
  match s with
  | Pooling _ _ _ w => w
  | Done _ w => w
  end.

(** Every move brings the end one step closer. *)
Definition measure (s : state) : nat :=
  match s with
  | Pooling queue running resolved w =>
      1 + total (λ t, 1 + length (script E t.2)) running
        + total (λ filename, 2 + length (script E (download_file filename))) queue
  | Done _ _ => 0
  end.

(** The names of all work items, wherever they stand. *)
Definition names (s : state) : list string :=
  match s with
  | Pooling queue running resolved _ => queue ++ running.*1 ++ resolved.*1
  | Done _ _ => []
  end.

(** A task writes to the path of its own file only. *)
Definition own_writes (t : string * prog bool) : Prop :=
  Forall (λ a, ∀ path, writes_to a = Some path → path = path_of t.1) (script E t.2).

(** So does every task that is running. *)
Definition footprint (s : state) : Prop :=
  match s with
  | Pooling _ running _ _ => Forall own_writes running
  | Done _ _ => True
  end.

(** The body is in the file once the task has ended, and before that it
    would get there if the task ran on alone from the current world. *)
Definition due (f : string) (data : bytes) (s : state) : Prop :=
  match s with
  | Pooling _ running resolved w =>
      (∀ p, (f, p) ∈ running → fs (run E p w).2 !! path_of f = Some data)
      ∧ (f ∈ resolved.*1 → fs w !! path_of f = Some data)
  | Done _ _ => True
  end.

(** The value a download returns. *)
Definition verdict (filename : string) : io_result bool :=
  Ok (bool_decide (first_error E filename = None)).

(** Every future resolves to the verdict of its download: none of them
    holds an exception. *)
Definition settled (s : state) : Prop :=
  match s with
  | Pooling _ running resolved _ =>
      (∀ filename p w, (filename, p) ∈ running → (run E p w).1 = verdict filename)
      ∧ (∀ filename r, (filename, r) ∈ resolved → r = verdict filename)
  | Done _ _ => True
  end.

(** Where the file of [f] stands against a download of [f] run alone:
    as it was ([start]) while [f] waits, on its way to what the lone
    download leaves ([target]) while [f] runs, there once [f] is resolved. *)
Definition as_alone (f : string) (start target : option bytes) (s : state) : Prop :=
  match s with
  | Pooling queue running resolved w =>
      (f ∈ queue → fs w !! path_of f = start)
      ∧ (∀ p, (f, p) ∈ running → fs (run E p w).2 !! path_of f = target)
      ∧ (f ∈ resolved.*1 → fs w !! path_of f = target)
  | Done _ _ => True
  end.

(** Not more workers at work than the pool has. *)
Definition workers_bounded (s : state) : Prop :=
  match s with
  | Pooling _ running _ _ => length running ≤ max_workers
  | Done _ _ => True
  end.

End with_env.

(** One for any [print]. *)
Definition is_any_print (a : some_action) : nat :=
  match a with
  | Some_action (Print _) => 1
  | Some_action _ => 0
  end.

Definition created_line : string := "Created directory: " +:+ OUTPUT_DIR.

(** An environment to run the pool in: one URL is missing, one body cannot
    be read, one local file cannot be opened, one cannot be written in
    full; every other download goes through with the same four bytes. *)
Definition demo_body : bytes := [Byte.x00; Byte.x61; Byte.x73; Byte.x6d].

Definition demo_env : env :=
  Env (λ req,
         if decide (full_url req = url_of "tree-sitter-c.wasm")
         then Err "HTTP Error 404: Not Found"
         else if decide (full_url req = url_of "tree-sitter-cpp.wasm")
         then Ok (Response (Err "timed out"))
         else Ok (Response (Ok demo_body)))
      (λ path,
         if decide (path = path_of "tree-sitter-css.wasm")
         then Some "[Errno 13] Permission denied" else None)
      (λ path,
         if decide (path = path_of "tree-sitter-dart.wasm")
         then Some (2, "[Errno 28] No space left on device") else None)
      (λ _, None).

(** Five workers taking turns: in every round a work item is handed out if
    a worker is free, then each worker makes one move. *)
Definition round_robin (rounds : nat) : list choice :=
  mjoin (replicate rounds (Dispatch :: map Work (seq 0 max_workers))) ++ [Join].

(** Where [main] ends under that schedule. *)
Definition demo_final : state :=
  exec demo_env (round_robin 80) (main_start demo_env empty_world).

(** The demo run after the pool has been asked thirty times to hand out
    work and no worker has moved yet. *)
Definition demo_midway : state :=
  exec demo_env (replicate 30 Dispatch) (main_start demo_env empty_world).

(** Another schedule: the first worker moves, then work is handed out. *)
Definition head_first (rounds : nat) : list choice :=
  mjoin (replicate rounds [Work 0; Dispatch]) ++ [Join].

Definition demo_final_head_first : state :=
  exec demo_env (head_first 320) (main_start demo_env empty_world).

(** A working directory that already holds a file of its own and an older
    copy of a file whose URL is gone, and the demo run from there. *)
Definition busy_world : world :=
  World {["README.md" := [Byte.x23]; "./tree-sitter-c.wasm" := [Byte.x6f; Byte.x6c; Byte.x64]]}
        {["."]} [] [].

Definition busy_final : state :=
  exec demo_env (round_robin 80) (main_start demo_env busy_world).

(** A place where the output directory is missing and cannot be made. *)
Definition no_dir_world : world := World ∅ ∅ [] [].

Definition readonly_env : env :=
  Env (urlopen demo_env) (disk_open demo_env) (disk_write demo_env)
      (λ _, Some "[Errno 30] Read-only file system").

(** A disk on which an older copy of one file already lies. *)
Definition stale_world : world :=
  World {["./tree-sitter-cpp.wasm" := demo_body]} {["."]} [] [].

End fetcher_vocabulary.

(** * Properties *)

(** ** The embedding on concrete inputs *)

Section examples.

Example splitext_icon : os_path.splitext "icon.png" = ("icon", ".png").
Proof. reflexivity. Qed.

Example splitext_dotfile : os_path.splitext "dir.d/.bashrc" = ("dir.d/.bashrc", "").
Proof. reflexivity. Qed.

Example splitext_nested : os_path.splitext "a/b.c/x.tar.gz" = ("a/b.c/x.tar", ".gz").
Proof. reflexivity. Qed.

Example dirname_nested : os_path.dirname "a/b//c.png" = "a/b".
Proof. reflexivity. Qed.

Example dirname_root : os_path.dirname "//x" = "//".
Proof. reflexivity. Qed.

Example join_dot : os_path.join "." "tree-sitter-c.wasm" = "./tree-sitter-c.wasm".
Proof. reflexivity. Qed.

Example splitext_no_extension : os_path.splitext "dir.v2/README" = ("dir.v2/README", "").
Proof. reflexivity. Qed.

Example join_absolute : os_path.join "." "/etc/passwd" = "/etc/passwd".
Proof. reflexivity. Qed.

Example transparent_pixels_grid : Converter.transparent_pixels grid_in = grid_out.
Proof. reflexivity. Qed.

Example truthy_values :
  map Converter.truthy
    [Converter.PyNone; Converter.PyStr ""; Converter.PyStr "out.png";
     Converter.PyBool false; Converter.PyInt 0; Converter.PyInt 7]
  = [false; false; true; false; false; true].
Proof. reflexivity. Qed.

(** A file that is no image makes the decoder raise, and nothing is saved. *)
Example not_an_image :
  let w := Converter.fresh {["notes.txt" := Converter.OtherFile "hello"]} in
  (Converter.white_to_transparent "notes.txt" Converter.PyNone w).1
  = Converter.Raised (Converter.UnidentifiedImageError "notes.txt")
  ∧ Converter.fs (Converter.white_to_transparent "notes.txt" Converter.PyNone w).2
    = Converter.fs w.
Proof. vm_compute. split; reflexivity. Qed.

(** What [open(path, "w+b")] says on a disk with the image [icon.png], the
    text file [notes.txt] and the directory [icons]. *)
Example open_refusals :
  map (Converter.open_refusal (Converter.fs notes_world))
    ["out.png"; "icons/out.png"; "./out.png"; "icon.png";
     "nodir/out.png"; "nodir/sub/out.png"; "nodir/sub/"; "new/.";
     "notes.txt/out.png"; "notes.txt/sub/out.png"; "notes.txt/.";
     "icons"; "icons/"; "icons/."; "nodir/"; "notes.txt/"; "."; "/"; ""]
  = [None; None; None; None;
     Some (Converter.FileNotFoundError "nodir/out.png");
     Some (Converter.FileNotFoundError "nodir/sub/out.png");
     Some (Converter.FileNotFoundError "nodir/sub/");
     Some (Converter.FileNotFoundError "new/.");
     Some (Converter.NotADirectoryError "notes.txt/out.png");
     Some (Converter.NotADirectoryError "notes.txt/sub/out.png");
     Some (Converter.NotADirectoryError "notes.txt/.");
     Some (Converter.IsADirectoryError "icons");
     Some (Converter.IsADirectoryError "icons/");
     Some (Converter.IsADirectoryError "icons/.");
     Some (Converter.IsADirectoryError "nodir/");
     Some (Converter.IsADirectoryError "notes.txt/");
     Some (Converter.IsADirectoryError ".");
     Some (Converter.IsADirectoryError "/");
     Some (Converter.FileNotFoundError "")].
Proof. vm_compute. reflexivity. Qed.

(** Saving into a directory that is not there raises after the image has
    been decoded, and writes nothing. *)
Example save_without_directory :
  Converter.white_to_transparent "icon.png" (Converter.PyStr "nodir/out.png") icon_world
  = (Converter.Raised (Converter.FileNotFoundError "nodir/out.png"),
     Converter.World (Converter.fs icon_world)
       [Converter.Printed (processing_line "icon.png"); Converter.Decoded "icon.png"] ∅).
Proof. vm_compute. reflexivity. Qed.

Example plain_paths :
  map plain ["icon.png"; "icons/clear.png"; "a/b/.c"; "./icon.png"; "a//b"; "icons/";
             "/tmp/x"; "../x"; "a/./b"; ""; String "000" "x"]
  = [true; true; true; false; false; false; false; false; false; false; false].
Proof. reflexivity. Qed.

Example splitext_dots :
  map os_path.splitext ["x."; "..a"; "...x.y"; "a/.b.c"; "a.b/"; ""]
  = [("x", "."); ("..a", ""); ("...x", ".y"); ("a/.b", ".c"); ("a.b/", ""); ("", "")].
Proof. reflexivity. Qed.

(** With PIL present and no [sidebar-icon.png], the script prints its five
    lines and the not-found message, and ends normally. *)
Example script_without_icon :
  (Converter.test_module true (Converter.fresh ∅)).1 = Converter.Returned Converter.PyNone
  ∧ length (Converter.trace (Converter.test_module true (Converter.fresh ∅)).2) = 6%nat.
Proof. vm_compute. split; reflexivity. Qed.

(** The demo run: a missing URL and a file that cannot be opened leave
    nothing on disk, an unreadable body leaves an empty file, a write that
    breaks off leaves what got through, and 36 downloads print 72 lines
    between the first and the last line of [main]. *)
Example demo_disk :
  let disk := Fetcher.fs (world_of demo_final) in
  disk !! "./tree-sitter-c.wasm" = None
  ∧ disk !! "./tree-sitter-css.wasm" = None
  ∧ disk !! "./tree-sitter-cpp.wasm" = Some []
  ∧ disk !! "./tree-sitter-dart.wasm" = Some [Byte.x00; Byte.x61]
  ∧ disk !! "./tree-sitter-zig.wasm" = Some demo_body
  ∧ size disk = 34%nat.
Proof. vm_compute. repeat split; reflexivity. Qed.

Example demo_console :
  length (Fetcher.console (world_of demo_final)) = 74%nat
  ∧ head (Fetcher.console (world_of demo_final)) = Some Fetcher.downloading_line.
Proof. vm_compute. split; reflexivity. Qed.

End examples.

(** ** Strings and paths *)

Section string_facts.
Implicit Types (s t : string) (c : ascii).

Lemma str_app_nil_l s : "" +:+ s = s.
Proof. reflexivity. Qed.

Lemma str_app_cons a s t : String a s +:+ t = String a (s +:+ t).
Proof. reflexivity. Qed.

Lemma str_len_nonneg s : 0 ≤ PyStr.len s.
Proof. unfold PyStr.len. lia. Qed.

Lemma str_len_app s t : PyStr.len (s +:+ t) = PyStr.len s + PyStr.len t.
Proof.
  unfold PyStr.len. induction s as [|a s IH].
  - rewrite str_app_nil_l. simpl. lia.
  - rewrite str_app_cons. simpl String.length. rewrite !Nat2Z.inj_succ. lia.
Qed.

Lemma str_take_drop n s : PyStr.take n s +:+ PyStr.drop n s = s.
Proof.
  revert s. induction n as [|n IH]; intros [|a s]; simpl; try done.
  by rewrite str_app_cons, IH.
Qed.

Lemma str_take_all n s : (String.length s ≤ n)%nat → PyStr.take n s = s.
Proof.
  revert s. induction n as [|n IH]; intros [|a s]; simpl; intros H; try done; try lia.
  rewrite IH; [done|lia].
Qed.

Lemma str_length_take n s : (n ≤ String.length s)%nat → String.length (PyStr.take n s) = n.
Proof.
  revert s. induction n as [|n IH]; intros [|a s]; simpl; intros H; try done; try lia.
  rewrite IH; [done|lia].
Qed.




Lemma slice_from_drop s n :
  0 ≤ n ≤ PyStr.len s → PyStr.slice_from s n = PyStr.drop (Z.to_nat n) s.
Proof.
  intros Hn. unfold PyStr.slice_from, PyStr.slice, PyStr.clamp.
  rewrite (proj2 (Z.ltb_ge n 0)) by lia.
  rewrite (proj2 (Z.ltb_ge (PyStr.len s) 0)) by lia.
  rewrite Z.min_l by lia. rewrite Z.min_l by lia.
  apply str_take_all.
  assert (H := str_take_drop (Z.to_nat n) s).
  apply (f_equal PyStr.len) in H. rewrite str_len_app in H.
  pose proof (str_length_take (Z.to_nat n) s) as Ht.
  unfold PyStr.len in *. lia.
Qed.

Lemma rfind_go_range c s i last :
  PyStr.rfind_go c s i last = last
  ∨ i ≤ PyStr.rfind_go c s i last < i + PyStr.len s.
Proof.
  revert i last. induction s as [|a s IH]; intros i last; simpl; [by left|].
  unfold PyStr.len in *. simpl String.length. rewrite Nat2Z.inj_succ.
  destruct (IH (i + 1) (if Ascii.eqb a c then i else last)) as [->|H].
  - destruct (Ascii.eqb a c); [right; lia | by left].
  - right. lia.
Qed.

Lemma rfind_range s c : -1 ≤ PyStr.rfind s c < PyStr.len s.
Proof.
  unfold PyStr.rfind. pose proof (str_len_nonneg s).
  destruct (rfind_go_range c s 0 (-1)) as [->|H']; lia.
Qed.

(** The scan can be restarted anywhere: what it finds in [s] only depends
    on [s], shifted by the start index. *)
Lemma rfind_go_shift c s i last :
  PyStr.rfind_go c s i last =
    if PyStr.rfind s c =? -1 then last else i + PyStr.rfind s c.
Proof.
  revert i last.
  induction s as [|a s IH]; intros i last; [done|].
  unfold PyStr.rfind. simpl.
  rewrite (IH (i + 1)), (IH 1).
  pose proof (rfind_range s c) as Hr.
  destruct (PyStr.rfind s c =? -1) eqn:E.
  - destruct (Ascii.eqb a c); simpl; [f_equal; lia | done].
  - apply Z.eqb_neq in E.
    rewrite (proj2 (Z.eqb_neq (1 + PyStr.rfind s c) (-1))) by lia. lia.
Qed.

Lemma rfind_app s t c :
  PyStr.rfind (s +:+ t) c =
    if PyStr.rfind t c =? -1 then PyStr.rfind s c
    else PyStr.len s + PyStr.rfind t c.
Proof.
  unfold PyStr.rfind at 1.
  assert (∀ i last, PyStr.rfind_go c (s +:+ t) i last
                    = PyStr.rfind_go c t (i + PyStr.len s) (PyStr.rfind_go c s i last)) as ->.
  { induction s as [|a s IH]; intros i last.
    - rewrite str_app_nil_l. unfold PyStr.len. simpl. by rewrite Z.add_0_r.
    - rewrite str_app_cons. simpl. rewrite IH. f_equal. unfold PyStr.len.
      simpl String.length. rewrite Nat2Z.inj_succ. lia. }
  rewrite rfind_go_shift. by rewrite Z.add_0_l.
Qed.


Lemma occurs_app c s t : occurs c (s +:+ t) = occurs c s || occurs c t.
Proof.
  induction s as [|a s IH]; [done|].
  rewrite str_app_cons. simpl. by rewrite IH, orb_assoc.
Qed.



Lemma rfind_single a c :
  PyStr.rfind (String a "") c = if Ascii.eqb a c then 0 else -1.
Proof. unfold PyStr.rfind. simpl. done. Qed.

Lemma rfind_cons a s c :
  PyStr.rfind (String a s) c =
    if PyStr.rfind s c =? -1 then (if Ascii.eqb a c then 0 else -1)
    else 1 + PyStr.rfind s c.
Proof.
  change (String a s) with (String a "" +:+ s).
  rewrite rfind_app, rfind_single. done.
Qed.

Lemma rfind_none s c : occurs c s = false → PyStr.rfind s c = -1.
Proof.
  induction s as [|a s IH]; [done|]. simpl. intros [Ha Hs]%orb_false_iff.
  rewrite rfind_cons, IH, Ha by done. done.
Qed.

Lemma rfind_occurs s c : PyStr.rfind s c = -1 → occurs c s = false.
Proof.
  induction s as [|a s IH]; [done|]. rewrite rfind_cons. simpl.
  pose proof (rfind_range s c).
  destruct (PyStr.rfind s c =? -1) eqn:E.
  - apply Z.eqb_eq in E. destruct (Ascii.eqb a c); [done|]. intros _. by apply IH.
  - apply Z.eqb_neq in E. lia.
Qed.

(** The last occurrence of a character is where the scan says. *)
Lemma rfind_last s t c :
  occurs c t = false → PyStr.rfind (s +:+ String c t) c = PyStr.len s.
Proof.
  intros Ht. rewrite rfind_app, rfind_cons, (rfind_none t c Ht).
  simpl. rewrite Ascii.eqb_refl. simpl. lia.
Qed.

Lemma endswith_snoc s c : PyStr.endswith s c = true → ∃ s', s = s' +:+ String c "".
Proof.
  induction s as [|a s IH]; [done|].
  destruct s as [|b s].
  - simpl. intros ->%Ascii.eqb_eq. by exists "".
  - intros H. destruct IH as [s' Hs']; [done|]. exists (String a s').
    by rewrite str_app_cons, <- Hs'.
Qed.

Lemma endswith_app s t c : t ≠ "" → PyStr.endswith (s +:+ t) c = PyStr.endswith t c.
Proof.
  intros Ht. induction s as [|a s IH]; [done|].
  rewrite str_app_cons. destruct (s +:+ t) as [|b u] eqn:E.
  - destruct s; [by rewrite str_app_nil_l in E | by rewrite str_app_cons in E].
  - done.
Qed.

Lemma rstrip_id s c : PyStr.endswith s c = false → PyStr.rstrip s c = s.
Proof.
  induction s as [|a s IH]; [done|].
  destruct s as [|b s].
  - simpl. by intros ->.
  - intros H. change (PyStr.rstrip (String a (String b s)) c)
      with (match PyStr.rstrip (String b s) c with
            | EmptyString => if Ascii.eqb a c then EmptyString else String a EmptyString
            | r => String a r
            end).
    rewrite IH by done. done.
Qed.

Lemma str_drop_app s t : PyStr.drop (String.length s) (s +:+ t) = t.
Proof. induction s as [|a s IH]; [done|]. by rewrite str_app_cons. Qed.






Lemma slice_from_app s t : PyStr.slice_from (s +:+ t) (PyStr.len s) = t.
Proof.
  rewrite slice_from_drop.
  - replace (Z.to_nat (PyStr.len s)) with (String.length s) by (unfold PyStr.len; lia).
    apply str_drop_app.
  - rewrite str_len_app. pose proof (str_len_nonneg s). pose proof (str_len_nonneg t). lia.
Qed.

End string_facts.

Section path_facts.
Implicit Types (p s t : string).








Lemma default_output_nonempty root : PyStr.nonempty (root +:+ default_suffix) = true.
Proof. by destruct root. Qed.


End path_facts.

(** ** The extension of a path *)

Section extension_facts.
Implicit Types (p s t dir stem ext : string).


(** The last separator of a path ends its directory part. *)
Lemma rfind_sep_dir dir name :
  dir = "" ∨ PyStr.endswith dir "/" = true →
  occurs "/" name = false →
  PyStr.rfind (dir +:+ name) "/" = PyStr.len dir - 1.
Proof.
  intros Hdir Hname. rewrite rfind_app, (rfind_none name "/" Hname). simpl.
  destruct Hdir as [->|Hd]; [done|].
  apply endswith_snoc in Hd as [d' ->].
  rewrite rfind_last by done. rewrite str_len_app. unfold PyStr.len. simpl. lia.
Qed.




(** Every path has a directory part and a file name. *)
Lemma path_parts p :
  ∃ dir name, p = dir +:+ name
              ∧ (dir = "" ∨ PyStr.endswith dir "/" = true)
              ∧ occurs "/" name = false.
Proof.
  induction p as [|a p (dir & name & -> & Hdir & Hname)].
  { by exists "", ""; auto. }
  destruct Hdir as [->|Hd].
  - rewrite str_app_nil_l. destruct (Ascii.eqb a "/") eqn:Ea.
    + apply Ascii.eqb_eq in Ea as ->. exists "/", name. auto.
    + exists "", (String a name). split_and!; auto. simpl. by rewrite Ea.
  - exists (String a dir), name. split_and!; auto. right.
    destruct dir; [done|]. done.
Qed.




End extension_facts.

(** ** Opening a path for writing *)

Section open_facts.
Import Converter.
Implicit Types (files : gmap string node) (p path out d : string).


Lemma is_directory_true (o : option node) : is_directory o = true → o = Some Directory.
Proof. by destruct o as [[]|]. Qed.

Lemma missing_directory_not_NameError n files d path name :
  missing_directory n files d path ≠ NameError name.
Proof.
  revert d. induction n as [|n IH]; intros d; simpl.
  - by destruct (files !! d) as [[]|].
  - destruct (files !! d) as [[]|]; try done;
      destruct (directory_there files (os_path.dirname d)); done.
Qed.

Lemma open_refusal_not_NameError files path e name :
  open_refusal files path = Some e → e ≠ NameError name.
Proof.
  unfold open_refusal.
  destruct (negb _); [by intros [= <-]|].
  destruct (is_directory _); [by intros [= <-]|].
  destruct (negb _); [intros [= <-]; apply missing_directory_not_NameError|].
  destruct (names_directory _); [by intros [= <-]|done].
Qed.

(** The directory of a listed path is there. *)
Lemma directory_there_listed files k n :
  files !! k = Some n → directory_there files (os_path.dirname k) = true.
Proof.
  intros Hk. unfold directory_there.
  destruct k as [|a k]; [done|].
  apply orb_true_iff. right. apply existsb_exists. exists (String a k, n). split.
  - apply list_elem_of_In, elem_of_map_to_list. done.
  - cbn [fst String.length ancestors existsb]. by rewrite String.eqb_refl.
Qed.






Lemma endswith_occurs s c : PyStr.endswith s c = true → occurs c s = true.
Proof.
  intros [s' ->]%endswith_snoc. rewrite occurs_app. simpl.
  rewrite Ascii.eqb_refl. by rewrite orb_true_r.
Qed.

Lemma components_file_name name : occurs "/" name = false → components name = [name].
Proof.
  induction name as [|a name IH]; [done|]. simpl.
  intros [-> Hn]%orb_false_iff. by rewrite IH.
Qed.

(** The last component of a path is its file name. *)
Lemma components_parts dir name :
  dir = "" ∨ PyStr.endswith dir "/" = true →
  occurs "/" name = false →
  ∃ cs, components (dir +:+ name) = cs ++ [name] ∧ (dir ≠ "" → cs ≠ []).
Proof.
  intros Hdir Hname. induction dir as [|a dir IH].
  { exists []. split; [by apply components_file_name|done]. }
  destruct Hdir as [|Hdir]; [done|].
  rewrite str_app_cons. cbn [components].
  destruct dir as [|b dir].
  - simpl in Hdir. rewrite Hdir, str_app_nil_l, components_file_name by done.
    by exists [""].
  - destruct IH as (cs & -> & Hcs); [by right|].
    destruct cs as [|c cs]; [by destruct Hcs|].
    destruct (Ascii.eqb a "/").
    + by exists ("" :: c :: cs).
    + by exists (String a c :: cs).
Qed.

Lemma basename_parts dir name :
  dir = "" ∨ PyStr.endswith dir "/" = true →
  occurs "/" name = false →
  os_path.basename (dir +:+ name) = name.
Proof.
  intros Hdir Hname. unfold os_path.basename, os_path.sep.
  rewrite rfind_sep_dir by done.
  replace (PyStr.len dir - 1 + 1) with (PyStr.len dir) by lia.
  apply slice_from_app.
Qed.

(** The last component of a plain path is a file name: the path does not
    end in a separator, it lies in its [dirname], and it cannot be taken
    for a directory. *)
Lemma plain_file_name p :
  plain p = true →
  PyStr.endswith p "/" = false ∧ parent p = os_path.dirname p ∧ names_directory p = false.
Proof.
  intros Hp. destruct (path_parts p) as (dir & name & -> & Hdir & Hname).
  destruct (components_parts dir name Hdir Hname) as (cs & Hcs & _).
  unfold plain in Hp. apply andb_true_iff in Hp as [Hp _].
  rewrite Hcs, forallb_app in Hp.
  apply andb_true_iff in Hp as [_ Hp]. cbn [forallb] in Hp. rewrite andb_true_r in Hp.
  unfold file_name in Hp. apply andb_true_iff in Hp as [[Hp _]%andb_true_iff _].
  apply negb_true_iff in Hp.
  apply orb_false_iff in Hp as [[Hempty Hdot]%orb_false_iff Hdots].
  assert (PyStr.endswith (dir +:+ name) "/" = false) as Hend.
  { rewrite endswith_app by (by destruct name).
    destruct (PyStr.endswith name "/") eqn:E; [|done].
    apply endswith_occurs in E. congruence. }
  split; [done|]. split.
  - unfold parent. by rewrite rstrip_id.
  - unfold names_directory. rewrite Hend, basename_parts by done.
    by rewrite Hdot, Hdots.
Qed.

(** A plain path that is no directory and lies in a directory that is
    there can be opened. *)
Lemma open_accepts files out :
  plain out = true →
  directory_there files out = false →
  directory_there files (os_path.dirname out) = true →
  open_refusal files out = None.
Proof.
  intros (_ & Hparent & Hname)%plain_file_name Hout Hdir. unfold open_refusal.
  destruct out as [|a out]; [done|].
  unfold directory_there in Hout.
  apply orb_false_iff in Hout as [[_ Hd]%orb_false_iff _].
  cbn [PyStr.nonempty negb]. by rewrite Hd, Hparent, Hdir, Hname.
Qed.



Lemma open_refusal_None files out :
  open_refusal files out = None →
  PyStr.nonempty out = true
  ∧ is_directory (files !! out) = false
  ∧ directory_there files (parent out) = true
  ∧ names_directory out = false.
Proof.
  unfold open_refusal.
  destruct (PyStr.nonempty out); [|done].
  destruct (is_directory _); [done|].
  destruct (directory_there _ _); [|done].
  destruct (names_directory _); done.
Qed.

(** A path that could be opened can be opened again once it is written. *)
Lemma open_after_write files out img :
  open_refusal files out = None →
  open_refusal (<[out := ImageFile img]> files) out = None.
Proof.
  intros (Hne & _ & _ & Hname)%open_refusal_None.
  unfold open_refusal. rewrite Hne, lookup_insert_eq, Hname. simpl.
  unfold names_directory in Hname.
  apply orb_false_iff in Hname as [[Hslash _]%orb_false_iff _].
  unfold parent. rewrite rstrip_id by done.
  by rewrite (directory_there_listed _ out (ImageFile img)) by apply lookup_insert_eq.
Qed.

(** Writing somewhere else leaves a path as easy to open as it was. *)
Lemma open_refusal_None_ne files out : open_refusal files out = None → out ≠ "".
Proof. intros (Hne & _)%open_refusal_None. by destruct out. Qed.

End open_facts.

(** ** The converter *)

Section converter_facts.
Import Converter.

Lemma loop_body_spec new_data item :
  loop_body new_data item = new_data ++ [spec_pixel item].
Proof.
  destruct item as [[[r g] b] a]. unfold loop_body, spec_pixel.
  destruct (decide _) as [(-> & -> & ->)|Hn]; [done|].
  destruct (r =? 255) eqn:Er, (g =? 255) eqn:Eg, (b =? 255) eqn:Eb; simpl; try done.
  apply Z.eqb_eq in Er, Eg, Eb. tauto.
Qed.

Lemma fold_loop_body datas new_data :
  fold_left loop_body datas new_data = new_data ++ map spec_pixel datas.
Proof.
  revert new_data. induction datas as [|item datas IH]; intros new_data; simpl.
  - by rewrite app_nil_r.
  - rewrite IH, loop_body_spec, <- app_assoc. done.
Qed.

Lemma transparent_pixels_map datas :
  transparent_pixels datas = map spec_pixel datas.
Proof. unfold transparent_pixels. by rewrite fold_loop_body. Qed.

Lemma spec_pixel_idemp item : spec_pixel (spec_pixel item) = spec_pixel item.
Proof.
  destruct item as [[[r g] b] a]. unfold spec_pixel.
  destruct (decide _) as [H|H]; [done|].
  destruct (decide _); [tauto|done].
Qed.

Lemma transparent_pixels_idemp datas :
  transparent_pixels (transparent_pixels datas) = transparent_pixels datas.
Proof.
  rewrite !transparent_pixels_map, map_map.
  apply map_ext. intros. apply spec_pixel_idemp.
Qed.

(** A run on an existing image file whose output path can be opened. *)
Lemma white_to_transparent_run input_path output_path raw out w :
  fs w !! input_path = Some (ImageFile raw) →
  spec_output input_path output_path = PyStr out →
  open_refusal (fs w) out = None →
  white_to_transparent input_path output_path w =
    (Returned PyNone,
     World (<[out := saved raw]> (fs w)) (trace w ++ run_trace input_path out) (globals w)).
Proof.
  intros Hin Hout Hopen.
  unfold white_to_transparent, bind, os_path_exists, print, emit, ret.
  rewrite Hin. rewrite bool_decide_eq_true_2 by eauto. simpl.
  unfold Image_open_convert. simpl. rewrite Hin. simpl.
  assert ((if negb (truthy output_path)
           then let '(f_name, _) := os_path.splitext input_path in
                PyStr (f_name +:+ "_transparent.png")
           else output_path) = PyStr out) as ->.
  { unfold spec_output in Hout. destruct (truthy output_path); simpl; [done|].
    by destruct (os_path.splitext input_path). }
  unfold save. simpl. rewrite Hopen. simpl.
  unfold saved, run_trace, getdata. rewrite <- ?app_assoc. done.
Qed.


End converter_facts.

Section converter_theorems.
Import Converter.

(** Unfolds one run of [white_to_transparent] down to the file-system
    lookups it depends on. *)
Ltac unfold_run :=
  unfold white_to_transparent, bind, os_path_exists, print, emit, ret,
    Image_open_convert, save; cbn -[open_refusal].

Lemma white_to_transparent_missing input_path output_path w :
  fs w !! input_path = None →
  white_to_transparent input_path output_path w =
    (Returned PyNone,
     World (fs w) (trace w ++ [Printed ("错误: 找不到文件 '" +:+ input_path +:+ "'")])
           (globals w)).
Proof.
  intros Hin. unfold_run. rewrite Hin.
  rewrite bool_decide_eq_false_2; [done|]. by intros [? ?].
Qed.

(** A run that returns has either found nothing at the input path, or
    found an image there and saved its conversion. *)
Lemma white_to_transparent_returned input_path output_path w r w1 :
  white_to_transparent input_path output_path w = (Returned r, w1) →
  (fs w !! input_path = None ∧ fs w1 = fs w)
  ∨ (∃ raw out,
       fs w !! input_path = Some (ImageFile raw)
       ∧ spec_output input_path output_path = PyStr out
       ∧ open_refusal (fs w) out = None).
Proof.
  destruct (fs w !! input_path) as [n|] eqn:Hin.
  2:{ rewrite white_to_transparent_missing by done. intros [= <- <-]. by left. }
  intros Hrun. right. revert Hrun. unfold_run. rewrite Hin.
  rewrite bool_decide_eq_true_2 by eauto. simpl. rewrite Hin.
  destruct n as [|raw|]; simpl; try done.
  intros Hrun. exists raw.
  unfold spec_output.
  destruct (truthy output_path) eqn:Ht; simpl in Hrun.
  - destruct output_path as [| | |out]; simpl in Hrun; try done.
    exists out. split_and!; try done.
    by destruct (open_refusal (fs w) out).
  - destruct (os_path.splitext input_path) as [f_name f_ext]. simpl in *.
    eexists. split_and!; try done. unfold default_suffix.
    by destruct (open_refusal (fs w) (f_name +:+ "_transparent.png")).
Qed.

(** C1. On an existing image whose output path can be written (it is
    spelled plainly, no directory is in its place, and the directory it
    lies in is there), the run returns and leaves at the output path an
    image of the same size in which every pixel whose first three channels
    are (255, 255, 255) is (255, 255, 255, 0), whatever its alpha was, and
    every other pixel is the input pixel; a source without alpha channel
    gets alpha 255 first. On the 2x2 grid of the specification the saved
    pixels are the expected ones. *)
Theorem white_pixels_become_transparent input_path output_path raw out w :
  fs w !! input_path = Some (ImageFile raw) →
  spec_output input_path output_path = PyStr out →
  plain out = true →
  directory_there (fs w) out = false →
  directory_there (fs w) (os_path.dirname out) = true →
  ∃ w' new_data,
    white_to_transparent input_path output_path w = (Returned PyNone, w')
    ∧ fs w' !! out =
        Some (ImageFile (ImageRGBA (width (convert_RGBA raw)) (height (convert_RGBA raw)) new_data))
    ∧ length new_data = length (pixels (convert_RGBA raw))
    ∧ (∀ i r g b a,
         pixels (convert_RGBA raw) !! i = Some (r, g, b, a) →
         new_data !! i =
           Some (if decide (r = 255 ∧ g = 255 ∧ b = 255)
                 then (255, 255, 255, 0) else (r, g, b, a)))
    ∧ (∀ W H data i r g b,
         raw = ImageRGB W H data → data !! i = Some (r, g, b) →
         pixels (convert_RGBA raw) !! i = Some (r, g, b, 255))
    ∧ (∀ W H data, raw = ImageRGBA W H data → pixels (convert_RGBA raw) = data)
    ∧ (pixels (convert_RGBA raw) = grid_in → new_data = grid_out).
Proof.
  intros Hin Hout Hplain Hdir Hparent.
  eexists _, (transparent_pixels (pixels (convert_RGBA raw))).
  split; [by apply white_to_transparent_run; try apply open_accepts|].
  simpl. rewrite lookup_insert_eq. split; [done|].
  rewrite transparent_pixels_map. split; [by rewrite length_map|].
  split_and!.
  - intros i r g b a Hi.
    change (map spec_pixel ?l) with (spec_pixel <$> l).
    rewrite list_lookup_fmap, Hi. done.
  - intros W H data i r g b -> Hi. simpl.
    change (map ?f data) with (f <$> data).
    by rewrite list_lookup_fmap, Hi.
  - by intros W H data ->.
  - by intros ->.
Qed.


(** C7. A second run on the same input with the same output argument
    returns like the first and leaves the file system as the first run left
    it, also when the output path is the input path; on pixel lists, the
    transformation applied to its own result changes nothing. *)
Theorem converter_idempotent input_path output_path w r w1 :
  white_to_transparent input_path output_path w = (Returned r, w1) →
  (∃ w2, white_to_transparent input_path output_path w1 = (Returned r, w2)
         ∧ fs w2 = fs w1)
  ∧ (∀ datas, transparent_pixels (transparent_pixels datas) = transparent_pixels datas).
Proof.
  intros Hrun. split; [|apply transparent_pixels_idemp].
  destruct (white_to_transparent_returned _ _ _ _ _ Hrun)
    as [[Hin Hfs]|(raw & out & Hin & Hout & Hopen)].
  - rewrite white_to_transparent_missing in Hrun by done.
    injection Hrun as <- <-.
    eexists. split; [by apply white_to_transparent_missing|done].
  - rewrite (white_to_transparent_run _ _ raw out) in Hrun by done.
    injection Hrun as <- <-.
    destruct (decide (input_path = out)) as [->|Hne].
    + eexists. split.
      * eapply (white_to_transparent_run out output_path _ out); simpl; try done.
        -- rewrite lookup_insert_eq. reflexivity.
        -- by apply open_after_write.
      * simpl. rewrite insert_insert_eq. f_equal.
        unfold saved. simpl. by rewrite transparent_pixels_idemp.
    + eexists. split.
      * eapply (white_to_transparent_run input_path output_path raw out); simpl; try done.
        -- by rewrite lookup_insert_ne.
        -- by apply open_after_write.
      * simpl. by rewrite insert_insert_eq.
Qed.



(** C3 (what the code does). With PIL missing, the script prints the
    instruction to install it and then raises [NameError] on its last line:
    the name it calls there was never bound. The file system is untouched. *)
Theorem missing_pil_raises_NameError files :
  test_module false (fresh files) =
    (Raised (NameError "white_to_transparent"),
     World files [Printed "错误: 未检测到 PIL/Pillow 库。请先运行: pip install Pillow"] ∅).
Proof. reflexivity. Qed.

(** With PIL present the same last line runs the converter on
    [sidebar-icon.png]. *)
Lemma present_pil_calls_converter files :
  ∃ w, fs w = files
       ∧ test_module true (fresh files) = white_to_transparent "sidebar-icon.png" PyNone w.
Proof.
  eexists (World files _ {["white_to_transparent"]}). split; [done|].
  unfold test_module, bind, def, print, emit, call_white_to_transparent, fresh. simpl.
  rewrite bool_decide_eq_true_2 by set_solver.
  do 2 f_equal.
Qed.

End converter_theorems.

Section converter_instances.
Import Converter.

(** The 2x2 grid of the specification, run through the converter. *)
Lemma white_pixels_on_grid :
  ∃ w', white_to_transparent "grid.png" PyNone grid_world = (Returned PyNone, w')
        ∧ fs w' !! "grid_transparent.png" = Some (ImageFile (ImageRGBA 2 2 grid_out)).
Proof.
  destruct (white_pixels_become_transparent "grid.png" PyNone (ImageRGBA 2 2 grid_in)
              "grid_transparent.png" grid_world)
    as (w' & new_data & Hrun & Hfs & _ & _ & _ & _ & Hgrid).
  - vm_compute. reflexivity.
  - vm_compute. reflexivity.
  - vm_compute. reflexivity.
  - vm_compute. reflexivity.
  - vm_compute. reflexivity.
  - exists w'. split; [exact Hrun|]. rewrite Hfs, (Hgrid eq_refl). reflexivity.
Defined.


(** Converting a file in place, twice. *)
Lemma in_place_conversion_twice :
  ∃ w2, white_to_transparent "icon.png" (PyStr "icon.png") icon_converted
          = (Returned PyNone, w2)
        ∧ fs w2 = fs icon_converted.
Proof.
  refine (proj1 (converter_idempotent "icon.png" (PyStr "icon.png") icon_world PyNone
                   icon_converted _)).
  vm_compute. reflexivity.
Defined.



End converter_instances.

(** ** The fetcher: one download *)

Section download_facts.
Import Fetcher.
Local Open Scope nat_scope.
Implicit Types (E : env) (w : world) (filename : string).

Ltac unfold_download :=
  unfold download_file, call;
  change (Request (url_of ?f) None [("User-Agent", user_agent)]) with (request_of f);
  cbn [bind try_except run script result effect].

Ltac case_env E filename :=
  destruct (urlopen E (request_of filename)) as [[[data|?]]|?] eqn:Hnet;
  destruct (disk_open E (path_of filename)) as [?|] eqn:Hopen;
  destruct (disk_write E (path_of filename)) as [[? ?]|] eqn:Hwrite.

(** The calls of one download, for each way it can go. *)
Lemma download_file_script E filename :
  ∃ middle,
    script E (download_file filename) =
      Some_action (Print (starting_line filename))
        :: Some_action (Urlopen (request_of filename))
        :: middle ++ [Some_action (Print (result_line E filename))]
    ∧ Forall (λ a, is_any_get a = 0
                   ∧ (∀ url, is_get url a = 0)
                   ∧ (∀ line, is_print line a = 0)
                   ∧ (∀ path, writes_to a = Some path → path = path_of filename))
             middle.
Proof.
  unfold result_line, first_error. unfold_download.
  case_env E filename; cbn [bind try_except run script result effect];
    rewrite ?Hnet, ?Hopen, ?Hwrite; cbn [bind try_except run script result effect read];
    rewrite ?Hnet, ?Hopen, ?Hwrite; cbn [bind try_except run script result effect read].
  all: try (exists []; split; [reflexivity | constructor]).
  all: try (eexists [_]; split; [reflexivity |]).
  all: try (eexists [_; _]; split; [reflexivity |]).
  all: try (eexists [_; _; _]; split; [reflexivity |]).
  all: repeat constructor; simpl; try congruence.
Qed.

(** One download run alone: it never raises, tells by its result whether a
    call raised, prints its two lines, issues its one request and leaves
    every other path alone. *)
Lemma download_file_run E filename w :
  ∃ w',
    run E (download_file filename) w = (Ok (bool_decide (first_error E filename = None)), w')
    ∧ console w' = console w ++ [starting_line filename; result_line E filename]
    ∧ requests w' = requests w ++ [url_of filename]
    ∧ dirs w' = dirs w
    ∧ (∀ path, path ≠ path_of filename → fs w' !! path = fs w !! path).
Proof.
  unfold result_line, first_error. unfold_download.
  case_env E filename; cbn [bind try_except run script result effect];
    rewrite ?Hnet, ?Hopen, ?Hwrite; cbn [bind try_except run script result effect read];
    rewrite ?Hnet, ?Hopen, ?Hwrite; cbn [bind try_except run script result effect read].
  all: eexists; split; [reflexivity|]; simpl.
  all: rewrite <- ?app_assoc; split_and!; try done.
  all: intros path Hne; rewrite ?lookup_insert_ne by done; done.
Qed.

(** A download in which nothing raises leaves the body in its file. *)
Lemma download_file_healthy E filename data w :
  healthy E filename data →
  (run E (download_file filename) w).1 = Ok true
  ∧ fs (run E (download_file filename) w).2 !! path_of filename = Some data.
Proof.
  intros (Hnet & Hopen & Hwrite). unfold_download.
  repeat (rewrite ?Hnet, ?Hopen, ?Hwrite;
          cbn [bind try_except run script result effect read]).
  simpl. split; [done|]. by rewrite lookup_insert_eq, lookup_insert_eq.
Qed.

(** A body that cannot be read: by then the local file has been opened,
    so it is left empty. *)
Lemma download_file_read_fails E filename e w :
  urlopen E (request_of filename) = Ok (Response (Err e)) →
  disk_open E (path_of filename) = None →
  run E (download_file filename) w =
    (Ok false,
     World (<[path_of filename := []]> (fs w)) (dirs w)
           (console w ++ [starting_line filename; failed_line filename e])
           (requests w ++ [url_of filename]))
  ∧ script E (download_file filename) =
      [Some_action (Print (starting_line filename));
       Some_action (Urlopen (request_of filename));
       Some_action (Open_wb (path_of filename));
       Some_action (Read (Response (Err e)));
       Some_action (Print (failed_line filename e))].
Proof.
  intros Hnet Hopen. unfold_download.
  repeat (rewrite ?Hnet, ?Hopen;
          cbn [bind try_except run script result effect read]).
  simpl. rewrite <- app_assoc. done.
Qed.

End download_facts.

(** ** The fetcher: the pool *)

Section pool_steps.
Import Fetcher.
Local Open Scope nat_scope.
Variable E : env.

Lemma steps_pool_step s s' : steps E s s' ↔ pool_step E s s'.
Proof.
  split.
  - intros [c Hc]. destruct s as [queue running resolved w|]; [|done].
    destruct c as [|i|]; simpl in Hc.
    + destruct queue as [|filename queue]; [done|].
      case_bool_decide; [|done]. injection Hc as <-. by constructor.
    + destruct (running !! i) as [[filename p]|] eqn:Hi; [|done].
      pose proof (take_drop_middle _ _ _ Hi) as Hsplit.
      pose proof (lookup_lt_Some _ _ _ Hi) as Hlt.
      rewrite <- Hsplit at 1.
      destruct p as [b|e|X a k]; injection Hc as <-.
      * rewrite delete_take_drop. by apply step_finish.
      * rewrite delete_take_drop. by apply step_finish.
      * rewrite insert_take_drop by done. apply step_call.
    + destruct queue; [|done]. destruct running; [|done].
      injection Hc as <-. constructor.
  - intros H. destruct H as [filename queue running resolved w Hlen
                            | filename X a k queue before after resolved w
                            | filename p r queue before after resolved w Hfin
                            | resolved w].
    + exists Dispatch. simpl. by rewrite bool_decide_eq_true_2.
    + exists (Work (length before)). simpl.
      rewrite list_lookup_middle by done.
      by rewrite insert_app_r_alt, Nat.sub_diag by lia.
    + exists (Work (length before)). simpl.
      rewrite list_lookup_middle by done. rewrite delete_middle.
      destruct p; simpl in Hfin; by simplify_eq.
    + by exists Join.
Qed.

(** The pool never waits for anything but its own threads: as long as
    [main] has not ended, some thread can move. *)
Lemma pool_progress queue running resolved w :
  ∃ s', steps E (Pooling queue running resolved w) s'.
Proof.
  destruct running as [|[filename p] running].
  - destruct queue as [|filename queue].
    + exists (Done (Ok tt) (print completed_line w)). by exists Join.
    + eexists. exists Dispatch. simpl. reflexivity.
  - destruct p as [b|e|X a k]; eexists; exists (Work 0); simpl; reflexivity.
Qed.

Lemma total_app {A} (g : A → nat) l1 l2 :
  total g (l1 ++ l2) = total g l1 + total g l2.
Proof. induction l1 as [|x l1 IH]; simpl; [done|]. rewrite IH. lia. Qed.

Lemma total_elem {A} (g : A → nat) l x : x ∈ l → g x ≤ total g l.
Proof.
  induction l as [|y l IH]; intros Hx; [by apply elem_of_nil in Hx|].
  apply elem_of_cons in Hx as [->|Hx]; simpl; [lia|]. specialize (IH Hx). lia.
Qed.

Lemma script_call {X} (a : action X) k :
  script E (Act (A:=bool) a k) = Some_action a :: script E (k (result E a)).
Proof. reflexivity. Qed.

Lemma script_finished p r : finished p = Some r → script E p = [].
Proof. by destruct p. Qed.

End pool_steps.

(** *** Counting what is still to come

    The result of a call does not depend on the world, so the calls a task
    will still make are known from its code. For any quantity [obs] of the
    world that each call raises by its own weight [g], the quantity plus the
    weights of all calls still to come stays the same while the pool runs. *)

Section potential.
Import Fetcher.
Local Open Scope nat_scope.
Variable E : env.
Variable g : some_action → nat.
Variable obs : world → nat.
Hypothesis obs_effect :
  ∀ X (a : action X) w, obs (effect E a w) = obs w + g (Some_action a).

Lemma potential_step s queue running resolved w :
  pool_step E s (Pooling queue running resolved w) →
  potential E g obs (Pooling queue running resolved w) = potential E g obs s.
Proof.
  inversion 1; subst; simpl; rewrite ?total_app; simpl.
  - lia.
  - change (weight E g (Act a k)) with (g (Some_action a) + weight E g (k (result E a))).
    rewrite obs_effect. lia.
  - assert (weight E g p = 0) as ->; [|lia].
    unfold weight. by erewrite script_finished.
Qed.

Lemma potential_steps s queue running resolved w :
  rtc (steps E) s (Pooling queue running resolved w) →
  potential E g obs (Pooling queue running resolved w) = potential E g obs s.
Proof.
  intros H. remember (Pooling queue running resolved w) as s' eqn:Es.
  revert queue running resolved w Es.
  induction H as [s|s1 s2 s3 H12 H23 IH]; intros queue running resolved w ->; [done|].
  rewrite (IH _ _ _ _ eq_refl).
  apply steps_pool_step in H12.
  destruct s2 as [q2 r2 d2 w2|]; [by apply potential_step|].
  apply rtc_inv in H23 as [?|(s' & [c Hc] & _)]; done.
Qed.

(** While the pool runs the quantity never goes down. *)
Lemma obs_steps_le s queue running resolved w :
  rtc (steps E) s (Pooling queue running resolved w) →
  obs (world_of s) ≤ obs w.
Proof.
  intros H. remember (Pooling queue running resolved w) as s' eqn:Es.
  revert queue running resolved w Es.
  induction H as [s|s1 s2 s3 H12 H23 IH]; intros queue running resolved w ->; [done|].
  specialize (IH _ _ _ _ eq_refl).
  apply steps_pool_step in H12.
  inversion H12; subst; simpl in *; try lia.
  - rewrite obs_effect in IH. lia.
  - apply rtc_inv in H23 as [?|(s' & [c Hc] & _)]; done.
Qed.

End potential.

Section pool_invariants.
Import Fetcher.
Local Open Scope nat_scope.
Variable E : env.

(** [main] ends by the join, and only from a drained pool. *)
Lemma run_ends_by_join s r w' :
  rtc (steps E) s (Done r w') →
  s = Done r w'
  ∨ ∃ resolved w,
      rtc (steps E) s (Pooling [] [] resolved w)
      ∧ r = Ok tt ∧ w' = print completed_line w.
Proof.
  intros H. apply rtc_inv_r in H as [->|(s1 & H1 & H2)]; [by left|].
  right. apply steps_pool_step in H2. inversion H2; subst. eauto.
Qed.

Lemma measure_step s s' : steps E s s' → measure E s = S (measure E s').
Proof.
  intros H. apply steps_pool_step in H.
  inversion H; subst; simpl; rewrite ?total_app; simpl; try lia.
  erewrite script_finished by done. simpl. lia.
Qed.

Lemma measure_nsteps n s s' : nsteps (steps E) n s s' → measure E s = n + measure E s'.
Proof.
  induction 1 as [|n s1 s2 s3 H12 H23 IH]; [done|].
  apply measure_step in H12. lia.
Qed.

Lemma names_step s queue running resolved w :
  pool_step E s (Pooling queue running resolved w) →
  names (Pooling queue running resolved w) ≡ₚ names s.
Proof.
  inversion 1; subst; simpl; rewrite ?fmap_app; simpl.
  - rewrite <- !app_assoc. simpl. by rewrite <- !Permutation_middle.
  - done.
  - rewrite <- !app_assoc. simpl. rewrite <- !Permutation_middle.
    by rewrite app_nil_r.
Qed.

Lemma names_steps s queue running resolved w :
  rtc (steps E) s (Pooling queue running resolved w) →
  names (Pooling queue running resolved w) ≡ₚ names s.
Proof.
  intros H. remember (Pooling queue running resolved w) as s' eqn:Es.
  revert queue running resolved w Es.
  induction H as [s|s1 s2 s3 H12 H23 IH]; intros queue running resolved w ->; [done|].
  rewrite (IH _ _ _ _ eq_refl).
  apply steps_pool_step in H12.
  destruct s2 as [q2 r2 d2 w2|]; [by apply names_step|].
  apply rtc_inv in H23 as [?|(s' & [c Hc] & _)]; done.
Qed.

End pool_invariants.

Section pool_footprint.
Import Fetcher.
Local Open Scope nat_scope.
Variable E : env.

Lemma pool_invariant (P : state → Prop) s s' :
  rtc (steps E) s s' →
  P s →
  (∀ s1 s2, rtc (steps E) s s1 → P s1 → pool_step E s1 s2 → P s2) →
  P s'.
Proof.
  intros H H0 Hstep. revert s' H. apply (rtc_ind_r (λ s', P s')); [done|].
  intros s1 s2 H1 H12 IH. apply (Hstep s1 s2); [done..|]. by apply steps_pool_step.
Qed.

(** What the three kinds of lines and the requests count. *)
Lemma count_print_effect line {X} (a : action X) w :
  count_occ string_dec (console (effect E a w)) line
  = count_occ string_dec (console w) line + is_print line (Some_action a).
Proof.
  destruct a as [line'|url|path|r|path data]; simpl.
  - rewrite count_occ_app. simpl.
    destruct (string_dec line' line), (decide (line' = line)); done.
  - lia.
  - destruct (disk_open E path); simpl; lia.
  - lia.
  - destruct (disk_write E path) as [[? ?]|]; simpl; lia.
Qed.

Lemma count_get_effect url {X} (a : action X) w :
  count_occ string_dec (requests (effect E a w)) url
  = count_occ string_dec (requests w) url + is_get url (Some_action a).
Proof.
  destruct a as [line|req|path|r|path data]; simpl.
  - lia.
  - rewrite count_occ_app. simpl.
    destruct (string_dec (full_url req) url), (decide (full_url req = url)); done.
  - destruct (disk_open E path); simpl; lia.
  - lia.
  - destruct (disk_write E path) as [[? ?]|]; simpl; lia.
Qed.

Lemma length_requests_effect {X} (a : action X) w :
  length (requests (effect E a w)) = length (requests w) + is_any_get (Some_action a).
Proof.
  destruct a as [line|url'|path|r|path data]; simpl.
  - lia.
  - by rewrite length_app.
  - destruct (disk_open E path); simpl; lia.
  - lia.
  - destruct (disk_write E path) as [[? ?]|]; simpl; lia.
Qed.

(** A call changes the file system at the path it writes to, at most. *)
Lemma effect_other_path {X} (a : action X) w path :
  writes_to (Some_action a) ≠ Some path →
  fs (effect E a w) !! path = fs w !! path.
Proof.
  destruct a as [line|url'|path'|r|path' data]; simpl; intros Hne; try done.
  - destruct (disk_open E path'); simpl; [done|].
    rewrite lookup_insert_ne; [done|congruence].
  - destruct (disk_write E path') as [[? ?]|]; simpl;
      (rewrite lookup_insert_ne; [done|congruence]).
Qed.

(** What a call leaves at a path depends on what was there, nothing else. *)
Lemma effect_frame {X} (a : action X) w1 w2 path :
  fs w1 !! path = fs w2 !! path →
  fs (effect E a w1) !! path = fs (effect E a w2) !! path.
Proof.
  intros H. destruct a as [line|url'|path'|r|path' data]; simpl; try done.
  - destruct (disk_open E path'); simpl; [done|].
    destruct (decide (path' = path)) as [->|Hne].
    + by rewrite !lookup_insert_eq.
    + by rewrite !lookup_insert_ne.
  - destruct (decide (path' = path)) as [->|Hne].
    + rewrite H. destruct (disk_write E path) as [[? ?]|]; simpl;
        by rewrite !lookup_insert_eq.
    + destruct (disk_write E path') as [[? ?]|]; simpl;
        by rewrite !lookup_insert_ne.
Qed.

Lemma run_frame (p : prog bool) w1 w2 path :
  fs w1 !! path = fs w2 !! path →
  fs (run E p w1).2 !! path = fs (run E p w2).2 !! path.
Proof.
  revert w1 w2. induction p as [b|e|X a k IH]; intros w1 w2 H; simpl; try done.
  apply IH. by apply effect_frame.
Qed.

Lemma own_writes_download filename : own_writes E (filename, download_file filename).
Proof.
  unfold own_writes. cbn [fst snd].
  destruct (download_file_script E filename) as (middle & -> & Hmid).
  repeat apply Forall_cons_2; try done.
  apply Forall_app. split.
  - eapply Forall_impl; [exact Hmid|]. simpl. intros a (_ & _ & _ & H). exact H.
  - by apply Forall_singleton.
Qed.

Lemma footprint_step s s' : footprint E s → pool_step E s s' → footprint E s'.
Proof.
  intros Hs H. inversion H; subst; simpl in *; try done.
  - apply Forall_app. split; [done|].
    apply Forall_singleton, own_writes_download.
  - apply Forall_app in Hs as [Hb Ha]. apply Forall_cons in Ha as [Ht Ha].
    apply Forall_app. split; [done|]. apply Forall_cons. split; [|done].
    unfold own_writes in *. simpl in *. by apply Forall_cons in Ht as [_ Ht].
  - apply Forall_app in Hs as [Hb Ha]. apply Forall_cons in Ha as [Ht Ha].
    apply Forall_app. by split.
Qed.

Lemma footprint_steps queue w s :
  rtc (steps E) (Pooling queue [] [] w) s → footprint E s.
Proof.
  intros H. apply (pool_invariant (footprint E) _ _ H).
  - by apply Forall_nil.
  - intros s1 s2 _. apply footprint_step.
Qed.

End pool_footprint.

(** *** Tasks do not disturb each other

    For a list of names without duplicates whose paths are all different:
    the file of a download in which nothing raises ends up holding its
    body, whatever the other tasks do and however the threads interleave. *)

Section isolation.
Import Fetcher.
Local Open Scope nat_scope.
Variable E : env.
Variable l : list string.
Hypothesis l_nodup : NoDup l.
Hypothesis l_paths : ∀ g h, g ∈ l → h ∈ l → path_of g = path_of h → g = h.
Variable f : string.
Variable data : bytes.
Hypothesis f_healthy : healthy E f data.

Lemma other_task queue (before : list (string * prog bool)) g pg after
    (resolved : list (string * io_result bool)) h :
  queue ++ (before ++ (g, pg) :: after).*1 ++ resolved.*1 ≡ₚ l →
  h ∈ (before ++ after).*1 ++ resolved.*1 →
  path_of g ≠ path_of h.
Proof.
  intros Hn Hh.
  rewrite fmap_app, fmap_cons in Hn. simpl in Hn.
  rewrite <- !app_assoc in Hn. simpl in Hn. rewrite <- !Permutation_middle in Hn.
  pose proof l_nodup as Hnd. rewrite <- Hn in Hnd.
  apply NoDup_cons in Hnd as [Hg _].
  assert (h ∈ queue ++ before.*1 ++ after.*1 ++ resolved.*1) as Hh'.
  { rewrite fmap_app, !elem_of_app in Hh. rewrite !elem_of_app. tauto. }
  intros Heq. apply l_paths in Heq.
  - by subst.
  - rewrite <- Hn. apply list_elem_of_here.
  - rewrite <- Hn. by apply list_elem_of_further.
Qed.

Lemma due_step s s' :
  names s ≡ₚ l → footprint E s → due E f data s → pool_step E s s' → due E f data s'.
Proof.
  intros Hn Hfp Hdue H.
  destruct H as [filename queue running resolved w Hlen
                | filename X a k queue before after resolved w
                | filename p r queue before after resolved w Hfin
                | resolved w]; cbn [due footprint names] in *; [| | |done].
  - destruct Hdue as [Hrun Hres]. split; [|done].
    intros p Hp. apply elem_of_app in Hp as [Hp|Hp]; [by apply Hrun|].
    apply list_elem_of_singleton in Hp. injection Hp as <- ->.
    by apply download_file_healthy.
  - destruct Hdue as [Hrun Hres].
    apply Forall_app in Hfp as [_ Hfp]. apply Forall_cons in Hfp as [Hown _].
    unfold own_writes in Hown. simpl in Hown. apply Forall_cons in Hown as [Hown _].
    assert (∀ h, h ∈ (before ++ after).*1 ++ resolved.*1 →
                 writes_to (Some_action a) ≠ Some (path_of h)) as Hother.
    { intros h Hh Hw. apply Hown in Hw.
      by apply (other_task queue before filename (Act a k) after resolved h). }
    split.
    + intros p Hp. apply elem_of_app in Hp as [Hp|Hp].
      * rewrite (run_frame E p _ w (path_of f)).
        -- apply Hrun. apply elem_of_app. by left.
        -- apply effect_other_path, Hother.
           apply elem_of_app. left. rewrite fmap_app. apply elem_of_app. left.
           by apply (list_elem_of_fmap_2 fst) in Hp.
      * apply elem_of_cons in Hp as [Hp|Hp].
        -- injection Hp as <- ->.
           apply (Hrun (Act a k)). apply elem_of_app. right. apply list_elem_of_here.
        -- rewrite (run_frame E p _ w (path_of f)).
           ++ apply Hrun. apply elem_of_app. right. by apply list_elem_of_further.
           ++ apply effect_other_path, Hother.
              apply elem_of_app. left. rewrite fmap_app. apply elem_of_app. right.
              by apply (list_elem_of_fmap_2 fst) in Hp.
    + intros Hf. rewrite effect_other_path; [by apply Hres|].
      apply Hother. apply elem_of_app. by right.
  - destruct Hdue as [Hrun Hres]. split.
    + intros p' Hp. apply Hrun. rewrite elem_of_app in Hp. rewrite elem_of_app, elem_of_cons.
      tauto.
    + rewrite fmap_app. intros Hf. apply elem_of_app in Hf as [Hf|Hf]; [by apply Hres|].
      apply list_elem_of_singleton in Hf. simpl in Hf. subst filename.
      specialize (Hrun p). destruct p; try done; simpl in Hrun; apply Hrun;
        apply elem_of_app; right; apply list_elem_of_here.
Qed.

Lemma due_steps w0 s : rtc (steps E) (Pooling l [] [] w0) s → due E f data s.
Proof.
  intros H. apply (pool_invariant E (due E f data) _ _ H).
  - split; [intros p Hin|intros Hin]; by apply elem_of_nil in Hin.
  - intros s1 s2 H1 Hdue H12. apply (due_step s1); try done.
    + destruct s1 as [q r d w|]; [|by inversion H12].
      rewrite (names_steps E _ _ _ _ _ H1). simpl. by rewrite app_nil_r.
    + by apply (footprint_steps E l w0).
Qed.

Lemma healthy_download_lands w0 r w' :
  rtc (steps E) (Pooling l [] [] w0) (Done r w') →
  f ∈ l →
  fs w' !! path_of f = Some data.
Proof.
  intros H Hf.
  apply run_ends_by_join in H as [?|(resolved & w & H & -> & ->)]; [done|].
  pose proof (due_steps _ _ H) as [_ Hres]. simpl.
  apply Hres. pose proof (names_steps E _ _ _ _ _ H) as Hn. simpl in Hn.
  rewrite app_nil_r in Hn. by rewrite Hn.
Qed.

End isolation.

(** ** The fetcher: the file list and the whole run *)

Section files_facts.
Import Fetcher.
Local Open Scope nat_scope.

Lemma FILES_NoDup : NoDup FILES.
Proof. apply (bool_decide_unpack _). vm_compute. exact I. Qed.

Lemma path_of_FILES f : f ∈ FILES → path_of f = "./" +:+ f.
Proof.
  revert f. apply Forall_forall. unfold FILES.
  repeat (apply Forall_cons_2; [reflexivity|]). apply Forall_nil_2.
Qed.

Lemma path_of_inj_FILES g h :
  g ∈ FILES → h ∈ FILES → path_of g = path_of h → g = h.
Proof.
  intros Hg Hh. rewrite (path_of_FILES g Hg), (path_of_FILES h Hh).
  apply (inj (String.append "./")).
Qed.

Lemma url_of_inj g h : url_of g = url_of h → g = h.
Proof. apply (inj (String.append BASE_URL)). Qed.

End files_facts.

Section whole_run.
Import Fetcher.
Local Open Scope nat_scope.
Variable E : env.

Lemma total_ext {A} (g1 g2 : A → nat) l :
  (∀ x, g1 x = g2 x) → total g1 l = total g2 l.
Proof. intros H. induction l as [|x l IH]; simpl; [done|]. by rewrite H, IH. Qed.

Lemma total_zero {A} (g : A → nat) l : Forall (λ x, g x = 0) l → total g l = 0.
Proof. induction 1 as [|x l Hx _ IH]; simpl; [done|]. lia. Qed.

Lemma total_one {A} (g : A → nat) l : (∀ x, g x = 1) → total g l = length l.
Proof. intros H. induction l as [|x l IH]; simpl; [done|]. by rewrite H, IH. Qed.

Lemma total_indicator (l : list string) f :
  NoDup l → f ∈ l → total (λ g, if decide (g = f) then 1 else 0) l = 1.
Proof.
  induction 1 as [|x l Hx Hnd IH]; intros Hf; [by apply elem_of_nil in Hf|].
  simpl. apply elem_of_cons in Hf as [->|Hf].
  - rewrite decide_True by done. rewrite total_zero; [done|].
    apply Forall_forall. intros y Hy. rewrite decide_False; [done|]. by intros ->.
  - rewrite decide_False by (by intros ->). by rewrite IH.
Qed.

(** How much one download adds to each count. *)
Lemma weight_get f g :
  weight E (is_get (url_of f)) (download_file g) = if decide (g = f) then 1 else 0.
Proof.
  unfold weight. destruct (download_file_script E g) as (middle & -> & Hmid).
  cbn [total is_get full_url request_of]. rewrite total_app.
  cbn [total is_get]. rewrite total_zero.
  - destruct (decide (url_of g = url_of f)) as [Hu|Hu], (decide (g = f)) as [Hg|Hg];
      try done.
    + by apply url_of_inj in Hu.
    + by subst.
  - eapply Forall_impl; [exact Hmid|]. cbv beta. intros a (_ & H & _). apply H.
Qed.

Lemma weight_any_get g : weight E is_any_get (download_file g) = 1.
Proof.
  unfold weight. destruct (download_file_script E g) as (middle & -> & Hmid).
  cbn [total is_any_get]. rewrite total_app. cbn [total is_any_get].
  rewrite total_zero; [done|].
  eapply Forall_impl; [exact Hmid|]. cbv beta. by intros a (H & _).
Qed.

Lemma weight_print line g :
  weight E (is_print line) (download_file g)
  = (if decide (starting_line g = line) then 1 else 0)
    + (if decide (result_line E g = line) then 1 else 0).
Proof.
  unfold weight. destruct (download_file_script E g) as (middle & -> & Hmid).
  cbn [total is_print]. rewrite total_app. cbn [total is_print].
  rewrite total_zero; [lia|].
  eapply Forall_impl; [exact Hmid|]. cbv beta. intros a (_ & _ & H & _). apply H.
Qed.

Lemma starting_line_not_completed g : starting_line g ≠ completed_line.
Proof. intros H. vm_compute in H. discriminate. Qed.

Lemma result_line_not_completed g : result_line E g ≠ completed_line.
Proof.
  unfold result_line. destruct (first_error E g); intros H; vm_compute in H; discriminate.
Qed.

Lemma weight_print_completed g :
  weight E (is_print completed_line) (download_file g) = 0.
Proof.
  rewrite weight_print. rewrite !decide_False; [done|..].
  - apply result_line_not_completed.
  - apply starting_line_not_completed.
Qed.

(** From any state of the pool there is a way to the end of [main]. *)
Lemma pool_finishes queue running resolved w :
  ∃ w', rtc (steps E) (Pooling queue running resolved w) (Done (Ok tt) w').
Proof.
  remember (measure E (Pooling queue running resolved w)) as n eqn:En.
  revert queue running resolved w En.
  induction n as [n IH] using lt_wf_ind. intros queue running resolved w En.
  destruct (pool_progress E queue running resolved w) as [s' Hs'].
  pose proof (measure_step E _ _ Hs') as Hm.
  pose proof Hs' as Hp. apply steps_pool_step in Hp.
  destruct s' as [q' r' d' w'|r' w'].
  - destruct (IH (measure E (Pooling q' r' d' w')) ltac:(lia) q' r' d' w' eq_refl)
      as [w'' Hw''].
    exists w''. by eapply rtc_l.
  - inversion Hp; subst. eexists. by apply rtc_once.
Qed.

Lemma exec_rtc cs s : rtc (steps E) s (exec E cs s).
Proof.
  revert s. induction cs as [|c cs IH]; intros s; simpl; [done|].
  destruct (step E c s) as [s'|] eqn:Hs; [|done].
  eapply rtc_l; [by exists c|done].
Qed.

(** Where [main] stands when the lines before the pool did not raise. *)
Lemma main_start_ok w0 :
  (setup E w0).1 = Ok tt →
  ∃ w1, main_start E w0 = Pooling FILES [] [] w1
        ∧ fs w1 = fs w0
        ∧ requests w1 = requests w0
        ∧ count_occ string_dec (console w1) completed_line
          = count_occ string_dec (console w0) completed_line.
Proof.
  assert (downloading_line ≠ completed_line) as Hd.
  { intros H. vm_compute in H. discriminate. }
  assert ("Created directory: " +:+ OUTPUT_DIR ≠ completed_line) as Hc.
  { intros H. vm_compute in H. discriminate. }
  unfold main_start, setup.
  destruct (negb (os_path_exists w0 OUTPUT_DIR)).
  - destruct (makedirs E OUTPUT_DIR); cbn [fst]; [done|]. intros _.
    eexists. split; [done|]. unfold print. cbn [fs requests console].
    rewrite !count_occ_app. cbn [count_occ].
    split_and!; try done;
      repeat (destruct (string_dec _ completed_line) as [H|_]; [done|]); lia.
  - cbn [fst]. intros _. eexists. split; [done|]. unfold print. cbn [fs requests console].
    rewrite !count_occ_app. cbn [count_occ].
    split_and!; try done;
      repeat (destruct (string_dec _ completed_line) as [H|_]; [done|]); lia.
Qed.

End whole_run.

Section settled_futures.
Import Fetcher.
Local Open Scope nat_scope.
Variable E : env.

Lemma run_result_indep (p : prog bool) w1 w2 : (run E p w1).1 = (run E p w2).1.
Proof.
  revert w1 w2. induction p as [b|e|X a k IH]; intros w1 w2; simpl; [done..|].
  apply IH.
Qed.

Lemma settled_step s s' : settled E s → pool_step E s s' → settled E s'.
Proof.
  intros Hs H.
  destruct H as [filename queue running resolved w Hlen
                | filename X a k queue before after resolved w
                | filename p r queue before after resolved w Hfin
                | resolved w]; cbn [settled] in *; [| | |done].
  - destruct Hs as [Hrun Hres]. split; [|done].
    intros g p w' Hp. apply elem_of_app in Hp as [Hp|Hp]; [by apply Hrun|].
    apply list_elem_of_singleton in Hp. injection Hp as -> ->.
    destruct (download_file_run E filename w') as (w'' & -> & _). done.
  - destruct Hs as [Hrun Hres]. split; [|done].
    intros g p w' Hp. rewrite elem_of_app, elem_of_cons in Hp.
    destruct Hp as [Hp|[Hp|Hp]].
    + apply Hrun. rewrite elem_of_app. by left.
    + injection Hp as -> ->.
      rewrite <- (Hrun filename (Act a k) w'); [|rewrite elem_of_app, elem_of_cons; tauto].
      simpl. apply run_result_indep.
    + apply Hrun. rewrite elem_of_app, elem_of_cons. tauto.
  - destruct Hs as [Hrun Hres]. split.
    + intros g p' w' Hp. apply Hrun. rewrite elem_of_app in Hp.
      rewrite elem_of_app, elem_of_cons. tauto.
    + intros g r' Hr. apply elem_of_app in Hr as [Hr|Hr]; [by apply Hres|].
      apply list_elem_of_singleton in Hr. injection Hr as -> ->.
      rewrite <- (Hrun filename p w); [|rewrite elem_of_app, elem_of_cons; tauto].
      destruct p; simpl in *; by simplify_eq.
Qed.

Lemma settled_steps queue w s :
  rtc (steps E) (Pooling queue [] [] w) s → settled E s.
Proof.
  intros H. apply (pool_invariant E (settled E) _ _ H).
  - split; intros; by match goal with H : _ ∈ [] |- _ => apply elem_of_nil in H end.
  - intros s1 s2 _. apply settled_step.
Qed.

(** What has been counted once the pool is drained. *)
Lemma drained_count g obs w1 resolved w :
  (∀ X (a : action X) w, obs (effect E a w) = obs w + g (Some_action a)) →
  rtc (steps E) (Pooling FILES [] [] w1) (Pooling [] [] resolved w) →
  obs w = obs w1 + total (λ filename, weight E g (download_file filename)) FILES.
Proof.
  intros Hobs H. pose proof (potential_steps E g obs Hobs _ _ _ _ _ H) as Hp.
  unfold potential in Hp. cbn [total] in Hp. lia.
Qed.

End settled_futures.

Section fetcher_theorems.
Import Fetcher.
Local Open Scope nat_scope.

(** C2 (amended). The hard-coded list [FILES] holds exactly 36 names. *)
Theorem FILES_has_36_entries : length FILES = 36.
Proof. reflexivity. Qed.

(** C2 as stated (35 names) fails on the list of the source. *)
Lemma FILES_not_35_entries : length FILES ≠ 35.
Proof. discriminate. Qed.

(** C10. When the body cannot be read after the connection has opened,
    [download_file] reports failure although the local file has already
    been opened for writing: the file is left empty, whatever it held
    before, and nothing else on disk changes. The file is opened before
    the body is read. *)
Theorem failed_read_leaves_empty_file E filename e w :
  urlopen E (request_of filename) = Ok (Response (Err e)) →
  disk_open E (path_of filename) = None →
  ∃ w',
    run E (download_file filename) w = (Ok false, w')
    ∧ fs w' !! path_of filename = Some []
    ∧ last (console w') = Some (failed_line filename e)
    ∧ (∀ path, path ≠ path_of filename → fs w' !! path = fs w !! path)
    ∧ ∃ before after,
        script E (download_file filename) =
          before ++ Some_action (Open_wb (path_of filename))
                 :: Some_action (Read (Response (Err e))) :: after.
Proof.
  intros Hnet Hopen.
  destruct (download_file_read_fails E filename e w Hnet Hopen) as [Hrun Hscript].
  eexists. split; [exact Hrun|]. cbn [fs console]. split_and!.
  - by rewrite lookup_insert_eq.
  - rewrite last_app. done.
  - intros path Hne. by rewrite lookup_insert_ne.
  - rewrite Hscript. by eexists [_; _], [_].
Qed.

(** C5. Provided [main] gets to the pool: a download never raises, it
    returns whether all its calls went through and, if one raised [e],
    prints the failure line naming the file and [e]; every future of the
    pool resolves to such a value; whatever has happened so far, the run
    can go on until [main] has printed its last line, it cannot get stuck
    before and cannot go on forever; and a download in which nothing
    raises has its body on disk at the end, whatever the others did. *)
Theorem download_failures_are_contained E w0 :
  (setup E w0).1 = Ok tt →
  (∀ filename w, ∃ w',
     run E (download_file filename) w
       = (Ok (bool_decide (first_error E filename = None)), w')
     ∧ console w' = console w ++ [starting_line filename; result_line E filename]
     ∧ ∀ e, first_error E filename = Some e →
            result_line E filename = "❌ Failed: " +:+ filename +:+ " - Error: " +:+ e)
  ∧ (∀ s, rtc (steps E) (main_start E w0) s →
       (∀ queue running resolved w filename r,
          s = Pooling queue running resolved w → (filename, r) ∈ resolved →
          r = Ok (bool_decide (first_error E filename = None)))
       ∧ (∃ w', rtc (steps E) s (Done (Ok tt) w'))
       ∧ ((∃ s', steps E s s')
          ∨ (∃ w', s = Done (Ok tt) w' ∧ last (console w') = Some completed_line)))
  ∧ (∀ n s, nsteps (steps E) n (main_start E w0) s → n ≤ measure E (main_start E w0))
  ∧ (∀ r w' filename data,
       rtc (steps E) (main_start E w0) (Done r w') →
       filename ∈ FILES → healthy E filename data →
       fs w' !! path_of filename = Some data).
Proof.
  intros Hsetup.
  destruct (main_start_ok E w0 Hsetup) as (w1 & -> & _).
  split_and!.
  - intros filename w.
    destruct (download_file_run E filename w) as (w' & Hrun & Hcon & _).
    exists w'. split_and!; try done.
    intros e He. unfold result_line. by rewrite He.
  - intros s Hs. split_and!.
    + intros queue running resolved w filename r -> Hr.
      pose proof (settled_steps E _ _ _ Hs) as [_ Hres]. by apply Hres.
    + destruct s as [queue running resolved w|r w].
      * apply pool_finishes.
      * apply run_ends_by_join in Hs as [?|(resolved & w' & _ & -> & ->)]; [done|].
        by eexists.
    + destruct s as [queue running resolved w|r w].
      * left. apply pool_progress.
      * right. apply run_ends_by_join in Hs as [?|(resolved & w' & _ & -> & ->)]; [done|].
        eexists. split; [done|]. simpl. by rewrite last_app.
  - intros n s Hn. apply measure_nsteps in Hn. lia.
  - intros r w' filename data Hrun Hin Hok.
    by apply (healthy_download_lands E FILES FILES_NoDup path_of_inj_FILES
                filename data Hok w1 r w').
Qed.

(** C6. Provided [main] gets to the pool: at any moment every entry of the
    list is exactly once waiting, running or resolved, the last line has
    not been printed while the pool is alive, and the run can be brought to
    its end. At the end one request has been issued for every entry and
    none besides, and the last line comes last, once, after the start line
    and the result line of every entry. *)
Theorem every_entry_attempted_once E w0 s :
  (setup E w0).1 = Ok tt →
  rtc (steps E) (main_start E w0) s →
  (∃ w', rtc (steps E) s (Done (Ok tt) w'))
  ∧ match s with
    | Pooling queue running resolved w =>
        queue ++ running.*1 ++ resolved.*1 ≡ₚ FILES
        ∧ count_occ string_dec (console w) completed_line
          = count_occ string_dec (console w0) completed_line
    | Done r w' =>
        r = Ok tt
        ∧ length (requests w') = length (requests w0) + length FILES
        ∧ (∀ filename, filename ∈ FILES →
             count_occ string_dec (requests w') (url_of filename)
             = count_occ string_dec (requests w0) (url_of filename) + 1)
        ∧ ∃ c, console w' = c ++ [completed_line]
               ∧ count_occ string_dec c completed_line
                 = count_occ string_dec (console w0) completed_line
               ∧ ∀ filename, filename ∈ FILES →
                   starting_line filename ∈ c ∧ result_line E filename ∈ c
    end.
Proof.
  intros Hsetup.
  destruct (main_start_ok E w0 Hsetup) as (w1 & -> & _ & Hreq & Hcon).
  intros Hs. destruct s as [queue running resolved w|r w'].
  - split; [apply pool_finishes|]. split.
    + pose proof (names_steps E _ _ _ _ _ Hs) as Hn.
      by change (names (Pooling FILES [] [] w1)) with FILES in Hn.
    + rewrite <- Hcon. apply Nat.le_antisymm.
      * pose proof (potential_steps E (is_print completed_line)
                      (λ w, count_occ string_dec (console w) completed_line)
                      (@count_print_effect E completed_line) _ _ _ _ _ Hs) as Hp.
        unfold potential in Hp. cbn [total] in Hp.
        rewrite (total_zero _ FILES) in Hp; [lia|].
        apply Forall_forall. intros filename _. apply weight_print_completed.
      * apply (obs_steps_le E (is_print completed_line)
                 (λ w, count_occ string_dec (console w) completed_line)
                 (@count_print_effect E completed_line) _ _ _ _ _ Hs).
  - apply run_ends_by_join in Hs as [?|(resolved & w & Hs & -> & ->)]; [done|].
    split; [by eexists|]. split; [done|]. simpl. split_and!.
    + rewrite (drained_count E is_any_get (λ w, length (requests w)) w1 resolved w
                 (@length_requests_effect E) Hs).
      rewrite Hreq. f_equal. apply total_one. intros filename. apply weight_any_get.
    + intros filename Hin.
      rewrite (drained_count E (is_get (url_of filename))
                 (λ w, count_occ string_dec (requests w) (url_of filename))
                 w1 resolved w (@count_get_effect E (url_of filename)) Hs).
      rewrite Hreq. f_equal.
      rewrite (total_ext _ (λ g, if decide (g = filename) then 1 else 0));
        [|intros g; apply weight_get].
      by apply total_indicator; [apply FILES_NoDup|].
    + exists (console w). split; [done|]. split.
      * rewrite (drained_count E (is_print completed_line)
                   (λ w, count_occ string_dec (console w) completed_line)
                   w1 resolved w (@count_print_effect E completed_line) Hs).
        rewrite Hcon. rewrite total_zero; [lia|].
        apply Forall_forall. intros filename _. apply weight_print_completed.
      * intros filename Hin.
        assert (∀ line,
                  (starting_line filename = line ∨ result_line E filename = line) →
                  line ∈ console w) as Hline.
        { intros line Hl. apply list_elem_of_In.
          apply (count_occ_In string_dec).
          rewrite (drained_count E (is_print line)
                     (λ w, count_occ string_dec (console w) line)
                     w1 resolved w (@count_print_effect E line) Hs).
          pose proof (total_elem (λ g, weight E (is_print line) (download_file g))
                        FILES filename Hin) as Hle.
          cbv beta in Hle. rewrite weight_print in Hle.
          destruct Hl as [Hl|Hl]; rewrite (decide_True _ _ Hl) in Hle; lia. }
        split; apply Hline; auto.
Qed.

End fetcher_theorems.

(** ** A concrete run of the fetcher *)

Section fetcher_instances.
Import Fetcher.
Local Open Scope nat_scope.

Lemma demo_final_done : demo_final = Done (Ok tt) (world_of demo_final).
Proof. vm_compute. reflexivity. Qed.

Lemma demo_failed_read :
  ∃ w', run demo_env (download_file "tree-sitter-cpp.wasm") stale_world = (Ok false, w')
        ∧ fs w' !! "./tree-sitter-cpp.wasm" = Some [].
Proof.
  destruct (failed_read_leaves_empty_file demo_env "tree-sitter-cpp.wasm" "timed out"
              stale_world) as (w' & Hrun & Hfs & _).
  - vm_compute. reflexivity.
  - vm_compute. reflexivity.
  - exists w'. split; [exact Hrun | exact Hfs].
Defined.

Lemma demo_sibling_lands :
  fs (world_of demo_final) !! "./tree-sitter-bash.wasm" = Some demo_body.
Proof.
  destruct (download_failures_are_contained demo_env empty_world) as (_ & _ & _ & Hiso).
  - vm_compute. reflexivity.
  - apply (Hiso (Ok tt) (world_of demo_final) "tree-sitter-bash.wasm" demo_body).
    + rewrite <- demo_final_done. apply exec_rtc.
    + apply list_elem_of_here.
    + split_and!; vm_compute; reflexivity.
Defined.

Lemma demo_attempts_counted :
  length (requests (world_of demo_final)) = 36
  ∧ last (console (world_of demo_final)) = Some completed_line.
Proof.
  pose proof (every_entry_attempted_once demo_env empty_world demo_final) as H.
  rewrite demo_final_done in H.
  destruct H as (_ & _ & Hlen & _ & c & Hc & _).
  - vm_compute. reflexivity.
  - rewrite <- demo_final_done. apply exec_rtc.
  - split; [exact Hlen|]. rewrite Hc. apply last_snoc.
Defined.

End fetcher_instances.

(** * Further properties of the converter *)

Section converter_more.
Import Converter.

Ltac unfold_wtt :=
  unfold white_to_transparent, bind, os_path_exists, print, emit, ret,
    Image_open_convert, save; cbn -[open_refusal].

(** With an explicit output path that can be written (it is spelled
    plainly, no directory is in its place, and the directory it lies in is
    there) the converted image is written there and nowhere else; the
    input file, spelled plainly too, stays as it is unless it is the
    output. *)
Theorem explicit_output_is_used input_path out raw w :
  fs w !! input_path = Some (ImageFile raw) →
  plain input_path = true →
  plain out = true →
  directory_there (fs w) out = false →
  directory_there (fs w) (os_path.dirname out) = true →
  ∃ w',
    white_to_transparent input_path (PyStr out) w = (Returned PyNone, w')
    ∧ fs w' = <[out := saved raw]> (fs w)
    ∧ (∀ path, path ≠ out → fs w' !! path = fs w !! path)
    ∧ (input_path ≠ out → fs w' !! input_path = Some (ImageFile raw))
    ∧ trace w' = trace w ++ [Printed (processing_line input_path); Decoded input_path;
                             Encoded out;
                             Printed ("成功! 输出文件已保存至: " +:+ out)].
Proof.
  intros Hin _ Hplain Hdir Hparent.
  pose proof (open_accepts _ _ Hplain Hdir Hparent) as Hopen.
  destruct (open_refusal_None _ _ Hopen) as (Hne & _).
  eexists. split.
  - apply (white_to_transparent_run input_path (PyStr out) raw out); try done.
    unfold spec_output. simpl. by rewrite Hne.
  - simpl. split_and!; try done.
    + intros path Hp. by rewrite lookup_insert_ne.
    + intros Hp. by rewrite lookup_insert_ne.
Qed.


(** A run that raises has written nothing: the file system is what it was,
    no file was encoded, and the success line was not printed. *)
Theorem failed_run_changes_nothing input_path output_path w e w' :
  white_to_transparent input_path output_path w = (Raised e, w') →
  fs w' = fs w
  ∧ globals w' = globals w
  ∧ trace w' = trace w ++ [Printed (processing_line input_path); Decoded input_path]
  ∧ (∀ name, e ≠ NameError name).
Proof.
  unfold_wtt.
  destruct (fs w !! input_path) as [n|] eqn:Hin.
  2:{ rewrite bool_decide_eq_false_2 by (by intros [? ?]). simpl. done. }
  rewrite bool_decide_eq_true_2 by eauto. simpl. rewrite Hin.
  destruct n as [|raw|c]; simpl.
  - intros [= <- <-]. simpl. by rewrite <- app_assoc.
  - destruct (if negb (truthy output_path) then _ else _) as [| | |out]; simpl;
      try (intros [= <- <-]; simpl; by rewrite <- app_assoc).
    destruct (open_refusal (fs w) out) as [e'|] eqn:Hopen; simpl; [|done].
    intros [= <- <-]. simpl. rewrite <- app_assoc. split_and!; try done.
    intros name. by apply (open_refusal_not_NameError (fs w) out).
  - intros [= <- <-]. simpl. by rewrite <- app_assoc.
Qed.

(** An existing path that holds no image makes the decoder's exception
    leave the function, after the processing line and before any save. *)
Theorem undecodable_input_raises input_path output_path n w :
  fs w !! input_path = Some n →
  (∀ raw, n ≠ ImageFile raw) →
  white_to_transparent input_path output_path w =
    (Raised (decode_error n input_path),
     World (fs w)
           (trace w ++ [Printed (processing_line input_path); Decoded input_path])
           (globals w)).
Proof.
  intros Hin Hn. unfold_wtt. rewrite Hin.
  rewrite bool_decide_eq_true_2 by eauto. simpl. rewrite Hin.
  destruct n as [|raw|c]; simpl; rewrite <- ?app_assoc; try done.
  by destruct (Hn raw).
Qed.

(** A directory at the output path: the image is decoded, the save raises,
    and nothing is written or reported as saved. *)
Theorem output_directory_raises input_path output_path raw out w :
  fs w !! input_path = Some (ImageFile raw) →
  spec_output input_path output_path = PyStr out →
  fs w !! out = Some Directory →
  white_to_transparent input_path output_path w =
    (Raised (IsADirectoryError out),
     World (fs w)
           (trace w ++ [Printed (processing_line input_path); Decoded input_path])
           (globals w)).
Proof.
  intros Hin Hout Hdir.
  assert (PyStr.nonempty out = true) as Hne.
  { unfold spec_output in Hout. destruct (truthy output_path) eqn:Ht.
    - subst. done.
    - injection Hout as <-. apply default_output_nonempty. }
  unfold_wtt. rewrite Hin. rewrite bool_decide_eq_true_2 by eauto. simpl. rewrite Hin.
  simpl.
  assert ((if negb (truthy output_path)
           then let '(f_name, _) := os_path.splitext input_path in
                PyStr (f_name +:+ "_transparent.png")
           else output_path) = PyStr out) as ->.
  { unfold spec_output in Hout. destruct (truthy output_path); simpl; [done|].
    by destruct (os_path.splitext input_path). }
  cbn -[open_refusal]. unfold open_refusal. rewrite Hne, Hdir.
  cbn. by rewrite <- app_assoc.
Qed.


(** The pixel list comes back unchanged exactly when no pixel shows white,
    that is when every pure-white pixel already has alpha 0. *)
Theorem unchanged_iff_no_visible_white (datas : list pixel) :
  transparent_pixels datas = datas ↔ Forall (λ item, ¬ visible_white item) datas.
Proof.
  rewrite transparent_pixels_map.
  induction datas as [|item datas IH]; simpl.
  - split; [constructor | done].
  - rewrite Forall_cons. rewrite <- IH. clear IH.
    assert (spec_pixel item = item ↔ ¬ visible_white item) as Hitem.
    { destruct item as [[[r g] b] a]. unfold spec_pixel, visible_white.
      destruct (decide _) as [(-> & -> & ->)|Hn].
      - split.
        + intros [= <-]. intros (_ & _ & _ & H). done.
        + intros H. destruct (decide (a = 0)) as [->|Ha]; [done|].
          destruct H. done.
      - split; [|done]. intros _ (? & ? & ? & _). tauto. }
    rewrite <- Hitem. split.
    + intros [= H1 H2]. done.
    + intros [-> ->]. done.
Qed.

(** In the result no pixel shows white, and the pixels that are not pure
    white are those of the input. *)
Theorem no_visible_white_left (datas : list pixel) (item : pixel) :
  item ∈ transparent_pixels datas →
  ¬ visible_white item ∧ (¬ is_white item → item ∈ datas).
Proof.
  rewrite transparent_pixels_map.
  change (map spec_pixel datas) with (spec_pixel <$> datas).
  intros H. apply list_elem_of_fmap in H as (item0 & -> & Hin).
  destruct item0 as [[[r g] b] a]. unfold spec_pixel.
  destruct (decide _) as [(-> & -> & ->)|Hn]; simpl.
  - split; [by intros (_ & _ & _ & H) | intros H; by destruct H].
  - split; [|done]. intros (? & ? & ? & _). tauto.
Qed.


(** A converted image is a fixed point of the converter: converting it
    again, to whatever path can be written (it is spelled plainly, no
    directory is in its place, and the directory it lies in is there),
    writes the same image. *)
Theorem converting_the_output_again raw out out2 w :
  fs w !! out = Some (saved raw) →
  plain out2 = true →
  directory_there (fs w) out2 = false →
  directory_there (fs w) (os_path.dirname out2) = true →
  ∃ w',
    white_to_transparent out (PyStr out2) w = (Returned PyNone, w')
    ∧ fs w' !! out2 = Some (saved raw).
Proof.
  intros Hin Hplain Hdir Hparent.
  pose proof (open_accepts _ _ Hplain Hdir Hparent) as Hopen.
  destruct (open_refusal_None _ _ Hopen) as (Hne & _).
  unfold saved in Hin. eexists. split.
  - eapply (white_to_transparent_run out (PyStr out2) _ out2); try done.
    unfold spec_output. simpl. by rewrite Hne.
  - simpl. rewrite lookup_insert_eq. f_equal.
    unfold saved. simpl. by rewrite transparent_pixels_idemp.
Qed.

End converter_more.

Section converter_more_instances.
Import Converter.

Lemma icon_written_to_explicit_path :
  ∃ w', white_to_transparent "icon.png" (PyStr "icons/clear.png") notes_world
          = (Returned PyNone, w')
        ∧ fs w' !! "icon.png" = fs notes_world !! "icon.png"
        ∧ is_Some (fs w' !! "icons/clear.png").
Proof.
  destruct (explicit_output_is_used "icon.png" "icons/clear.png"
              (ImageRGB 1 2 [(255, 255, 255); (1, 2, 3)]) notes_world)
    as (w' & Hrun & Hfs & Hother & _).
  - vm_compute. reflexivity.
  - vm_compute. reflexivity.
  - vm_compute. reflexivity.
  - vm_compute. reflexivity.
  - vm_compute. reflexivity.
  - exists w'. split; [exact Hrun|]. split.
    + apply Hother. discriminate.
    + rewrite Hfs, lookup_insert_eq. eexists. reflexivity.
Defined.


Lemma notes_run_changes_nothing :
  fs (white_to_transparent "notes.txt" PyNone notes_world).2 = fs notes_world.
Proof.
  refine (proj1 (failed_run_changes_nothing "notes.txt" PyNone notes_world
                   (UnidentifiedImageError "notes.txt")
                   (white_to_transparent "notes.txt" PyNone notes_world).2 _)).
  vm_compute. reflexivity.
Defined.

Lemma directory_input_raises :
  (white_to_transparent "icons" PyNone notes_world).1 = Raised (IsADirectoryError "icons").
Proof.
  rewrite (undecodable_input_raises "icons" PyNone Directory notes_world).
  - reflexivity.
  - vm_compute. reflexivity.
  - discriminate.
Defined.

Lemma saving_onto_directory_raises :
  (white_to_transparent "icon.png" (PyStr "icons") notes_world).1
  = Raised (IsADirectoryError "icons").
Proof.
  rewrite (output_directory_raises "icon.png" (PyStr "icons")
             (ImageRGB 1 2 [(255, 255, 255); (1, 2, 3)]) "icons" notes_world).
  - reflexivity.
  - vm_compute. reflexivity.
  - reflexivity.
  - vm_compute. reflexivity.
Defined.


Lemma grid_out_has_no_visible_white : ¬ visible_white (255, 255, 255, 0).
Proof.
  refine (proj1 (no_visible_white_left grid_in (255, 255, 255, 0) _)).
  vm_compute. apply list_elem_of_here.
Defined.


Lemma converted_icon_converts_to_itself :
  ∃ w', white_to_transparent "icon.png" (PyStr "again.png") icon_converted
          = (Returned PyNone, w')
        ∧ fs w' !! "again.png" = fs icon_converted !! "icon.png".
Proof.
  destruct (converting_the_output_again (ImageRGB 1 2 [(255, 255, 255); (1, 2, 3)])
              "icon.png" "again.png" icon_converted) as (w' & Hrun & Hfs).
  - vm_compute. reflexivity.
  - vm_compute. reflexivity.
  - vm_compute. reflexivity.
  - vm_compute. reflexivity.
  - exists w'. split; [exact Hrun|]. rewrite Hfs. vm_compute. reflexivity.
Defined.

End converter_more_instances.

(** * Further properties of the fetcher *)

Section download_more.
Import Fetcher.
Local Open Scope nat_scope.
Variable E : env.

Ltac run_download :=
  unfold download_file, call;
  change (Request (url_of ?f) None [("User-Agent", user_agent)]) with (request_of f);
  cbn [bind try_except run script result effect].

(** A download in which nothing raises returns [True]: its file holds the
    body and nothing of what it held before, both lines are printed and one
    request was issued. *)
Theorem successful_download filename data w :
  healthy E filename data →
  run E (download_file filename) w =
    (Ok true,
     World (<[path_of filename := data]> (fs w)) (dirs w)
           (console w ++ [starting_line filename; success_line filename])
           (requests w ++ [url_of filename])).
Proof.
  intros (Hnet & Hopen & Hwrite). run_download.
  repeat (rewrite ?Hnet, ?Hopen, ?Hwrite;
          cbn [bind try_except run script result effect read]).
  simpl. rewrite lookup_insert_eq. simpl. rewrite insert_insert_eq.
  by rewrite <- app_assoc.
Qed.

Lemma download_refused filename e w :
  urlopen E (request_of filename) = Err e
  ∨ (∃ response, urlopen E (request_of filename) = Ok response
                 ∧ disk_open E (path_of filename) = Some e) →
  run E (download_file filename) w =
    (Ok false,
     World (fs w) (dirs w)
           (console w ++ [starting_line filename; failed_line filename e])
           (requests w ++ [url_of filename])).
Proof.
  intros [Hnet|(response & Hnet & Hopen)]; run_download.
  - rewrite Hnet. cbn [bind try_except run script result effect].
    simpl. by rewrite <- app_assoc.
  - repeat (rewrite ?Hnet, ?Hopen;
            cbn [bind try_except run script result effect read]).
    simpl. by rewrite <- app_assoc.
Qed.

(** When the URL cannot be opened, or the local file cannot, the download
    returns [False] and the disk is as it was: the local file is opened
    only after the connection, and an older copy survives. *)
Theorem refused_download_keeps_disk filename e w :
  urlopen E (request_of filename) = Err e
  ∨ (∃ response, urlopen E (request_of filename) = Ok response
                 ∧ disk_open E (path_of filename) = Some e) →
  run E (download_file filename) w =
    (Ok false,
     World (fs w) (dirs w)
           (console w ++ [starting_line filename; failed_line filename e])
           (requests w ++ [url_of filename])).
Proof. apply download_refused. Qed.

Lemma first_error_None_healthy filename :
  first_error E filename = None → ∃ data, healthy E filename data.
Proof.
  unfold first_error, healthy.
  destruct (urlopen E (request_of filename)) as [[[data|?]]|?]; simpl; try done.
  - destruct (disk_open E (path_of filename)); try done.
    destruct (disk_write E (path_of filename)) as [[? ?]|]; try done.
    intros _. by exists data.
  - by destruct (disk_open E (path_of filename)).
Qed.

End download_more.

Section pool_more.
Import Fetcher.
Local Open Scope nat_scope.
Variable E : env.

Lemma done_is_final r w s : rtc (steps E) (Done r w) s → s = Done r w.
Proof. intros H. apply rtc_inv in H as [?|(s' & [c Hc] & _)]; done. Qed.

(** [main] reaches the pool with the disk and the request log untouched, or
    it has ended on the exception of [os.makedirs]. *)
Lemma main_start_cases w0 :
  (∃ w1, main_start E w0 = Pooling FILES [] [] w1
         ∧ (setup E w0).1 = Ok tt
         ∧ fs w1 = fs w0 ∧ requests w1 = requests w0
         ∧ console w1 = console w0
                          ++ (if os_path_exists w0 OUTPUT_DIR then [] else [created_line])
                          ++ [downloading_line])
  ∨ (∃ e, main_start E w0 = Done (Err e) w0
          ∧ os_path_exists w0 OUTPUT_DIR = false
          ∧ makedirs E OUTPUT_DIR = Some e).
Proof.
  unfold main_start, setup.
  destruct (os_path_exists w0 OUTPUT_DIR) eqn:Hex; cbn [negb].
  - left. eexists. split_and!; try done.
  - destruct (makedirs E OUTPUT_DIR) as [e|] eqn:Hmk.
    + right. by exists e.
    + left. eexists. split_and!; try done.
      unfold print. cbn [console]. by rewrite <- app_assoc.
Qed.

(** The pool never has more than [max_workers] tasks at work. *)
Lemma workers_bounded_step s s' :
  workers_bounded s → pool_step E s s' → workers_bounded s'.
Proof.
  intros Hs H. inversion H; subst; simpl in *; try done.
  - rewrite length_app. simpl. lia.
  - rewrite length_app in *. simpl in *. lia.
  - rewrite length_app in *. simpl in *. lia.
Qed.

Theorem at_most_five_workers w0 s :
  rtc (steps E) (main_start E w0) s →
  match s with
  | Pooling _ running _ _ => length running ≤ 5
  | Done _ _ => True
  end.
Proof.
  intros H. apply (pool_invariant E workers_bounded _ _ H).
  - destruct (main_start_cases w0) as [(w1 & -> & _)|(e & -> & _)]; simpl; [lia|done].
  - intros s1 s2 _. apply workers_bounded_step.
Qed.

(** Two work items of the list never share a path. *)
Lemma other_item queue (before : list (string * prog bool)) g pg after
    (resolved : list (string * io_result bool)) h :
  queue ++ (before ++ (g, pg) :: after).*1 ++ resolved.*1 ≡ₚ FILES →
  h ∈ queue ++ (before ++ after).*1 ++ resolved.*1 →
  path_of g ≠ path_of h.
Proof.
  intros Hn Hh.
  rewrite fmap_app, fmap_cons in Hn. simpl in Hn.
  rewrite <- !app_assoc in Hn. simpl in Hn. rewrite <- !Permutation_middle in Hn.
  pose proof FILES_NoDup as Hnd. rewrite <- Hn in Hnd.
  apply NoDup_cons in Hnd as [Hg _].
  assert (h ∈ queue ++ before.*1 ++ after.*1 ++ resolved.*1) as Hh'.
  { rewrite fmap_app, !elem_of_app in Hh. rewrite !elem_of_app. tauto. }
  intros Heq. apply path_of_inj_FILES in Heq.
  - by subst.
  - rewrite <- Hn. apply list_elem_of_here.
  - rewrite <- Hn. by apply list_elem_of_further.
Qed.

(** A call of a running task writes to the path of a list entry, if at all. *)
Lemma call_writes_into_list queue before filename {X} (a : action X) k after
    (resolved : list (string * io_result bool)) w path :
  names (Pooling queue (before ++ (filename, Act a k) :: after) resolved w) ≡ₚ FILES →
  footprint E (Pooling queue (before ++ (filename, Act a k) :: after) resolved w) →
  writes_to (Some_action a) = Some path →
  path = path_of filename ∧ filename ∈ FILES.
Proof.
  intros Hn Hfp Hw. cbn [names footprint] in *.
  apply Forall_app in Hfp as [_ Hfp]. apply Forall_cons in Hfp as [Hown _].
  unfold own_writes in Hown. simpl in Hown. apply Forall_cons in Hown as [Hown _].
  split; [by apply Hown|].
  rewrite <- Hn. rewrite fmap_app, fmap_cons, !elem_of_app, elem_of_cons. simpl. tauto.
Qed.

Lemma foreign_path_kept w0 s path :
  rtc (steps E) (main_start E w0) s →
  path ∉ map path_of FILES →
  fs (world_of s) !! path = fs w0 !! path.
Proof.
  intros H Hpath.
  destruct (main_start_cases w0) as [(w1 & Hstart & _ & Hfs & _)|(e & Hstart & _)];
    rewrite Hstart in H.
  2:{ apply done_is_final in H as ->. done. }
  apply (pool_invariant E (λ s, fs (world_of s) !! path = fs w0 !! path) _ _ H).
  - simpl. by rewrite Hfs.
  - intros s1 s2 H1 IH H12.
    pose proof (footprint_steps E _ _ _ H1) as Hfp.
    destruct H12 as [filename queue running resolved w Hlen
                    | filename X a k queue before after resolved w
                    | filename p r queue before after resolved w Hfin
                    | resolved w]; cbn [world_of] in *; try done.
    pose proof (names_steps E _ _ _ _ _ H1) as Hn.
    change (names (Pooling FILES [] [] w1)) with FILES in Hn.
    rewrite effect_other_path; [done|].
    intros Hw.
    destruct (call_writes_into_list _ _ _ _ _ _ _ _ _ Hn Hfp Hw) as [-> Hin].
    apply Hpath. change (map path_of FILES) with (path_of <$> FILES).
    by apply list_elem_of_fmap_2.
Qed.

(** Whatever the schedule and the outside do, [main] changes no path but
    those of the files in its list. *)
Theorem other_paths_untouched w0 s path :
  rtc (steps E) (main_start E w0) s →
  path ∉ map path_of FILES →
  fs (world_of s) !! path = fs w0 !! path.
Proof. apply foreign_path_kept. Qed.

(** *** Every file ends as if its download had run alone *)

Lemma as_alone_step f start target s s' :
  (∀ w, fs w !! path_of f = start →
        fs (run E (download_file f) w).2 !! path_of f = target) →
  names s ≡ₚ FILES → footprint E s →
  as_alone E f start target s → pool_step E s s' → as_alone E f start target s'.
Proof.
  intros Hstart Hn Hfp Hs H.
  destruct H as [filename queue running resolved w Hlen
                | filename X a k queue before after resolved w
                | filename p r queue before after resolved w Hfin
                | resolved w]; cbn [as_alone] in *; [| | |done].
  - destruct Hs as (Hq & Hrun & Hres). split_and!; try done.
    + intros Hf. apply Hq. by apply list_elem_of_further.
    + intros p Hp. apply elem_of_app in Hp as [Hp|Hp]; [by apply Hrun|].
      apply list_elem_of_singleton in Hp. injection Hp as <- ->.
      apply Hstart, Hq, list_elem_of_here.
  - destruct Hs as (Hq & Hrun & Hres).
    assert (∀ h, h ∈ queue ++ (before ++ after).*1 ++ resolved.*1 →
                 fs (effect E a w) !! path_of h = fs w !! path_of h) as Hother.
    { intros h Hh. apply effect_other_path. intros Hw.
      destruct (call_writes_into_list _ _ _ _ _ _ _ _ _ Hn Hfp Hw) as [Hp _].
      by apply (other_item queue before filename (Act a k) after resolved h). }
    split_and!.
    + intros Hf. rewrite Hother; [by apply Hq|]. apply elem_of_app. by left.
    + intros p Hp. apply elem_of_app in Hp as [Hp|Hp].
      * rewrite (run_frame E p _ w (path_of f)).
        -- apply Hrun. apply elem_of_app. by left.
        -- apply Hother. rewrite !elem_of_app, fmap_app, elem_of_app.
           right. left. left. by apply (list_elem_of_fmap_2 fst) in Hp.
      * apply elem_of_cons in Hp as [Hp|Hp].
        -- injection Hp as <- ->.
           apply (Hrun (Act a k)). apply elem_of_app. right. apply list_elem_of_here.
        -- rewrite (run_frame E p _ w (path_of f)).
           ++ apply Hrun. apply elem_of_app. right. by apply list_elem_of_further.
           ++ apply Hother. rewrite !elem_of_app, fmap_app, elem_of_app.
              right. left. right. by apply (list_elem_of_fmap_2 fst) in Hp.
    + intros Hf. rewrite Hother; [by apply Hres|]. rewrite !elem_of_app. tauto.
  - destruct Hs as (Hq & Hrun & Hres). split_and!; try done.
    + intros p' Hp. apply Hrun. rewrite elem_of_app in Hp.
      rewrite elem_of_app, elem_of_cons. tauto.
    + rewrite fmap_app. intros Hf. apply elem_of_app in Hf as [Hf|Hf]; [by apply Hres|].
      apply list_elem_of_singleton in Hf. simpl in Hf. subst filename.
      specialize (Hrun p). destruct p; try done; simpl in Hrun; apply Hrun;
        apply elem_of_app; right; apply list_elem_of_here.
Qed.

Lemma as_alone_steps f w1 s :
  rtc (steps E) (Pooling FILES [] [] w1) s →
  as_alone E f (fs w1 !! path_of f)
           (fs (run E (download_file f) w1).2 !! path_of f) s.
Proof.
  intros H.
  apply (pool_invariant E
           (as_alone E f (fs w1 !! path_of f)
                     (fs (run E (download_file f) w1).2 !! path_of f)) _ _ H).
  - split_and!; try done; [intros p Hin|intros Hin]; by apply elem_of_nil in Hin.
  - intros s1 s2 H1 Hs H12. apply (as_alone_step _ _ _ s1); try done.
    + intros w Hw. by apply run_frame.
    + destruct s1 as [q r d w|]; [|by inversion H12].
      rewrite (names_steps E _ _ _ _ _ H1). reflexivity.
    + by apply (footprint_steps E FILES w1).
Qed.

Lemma final_file_alone w0 r w' filename :
  rtc (steps E) (main_start E w0) (Done r w') →
  r = Ok tt →
  filename ∈ FILES →
  fs w' !! path_of filename = fs (run E (download_file filename) w0).2 !! path_of filename.
Proof.
  intros H -> Hin.
  destruct (main_start_cases w0) as [(w1 & Hstart & _ & Hfs & _)|(e & Hstart & _)];
    rewrite Hstart in H.
  2:{ by apply done_is_final in H. }
  apply run_ends_by_join in H as [?|(resolved & w & H & _ & ->)]; [done|].
  pose proof (as_alone_steps filename w1 _ H) as (_ & _ & Hres).
  pose proof (names_steps E _ _ _ _ _ H) as Hn.
  change (names (Pooling FILES [] [] w1)) with FILES in Hn. simpl in Hn.
  cbn [print fs]. rewrite Hres by (by rewrite Hn).
  apply run_frame. by rewrite Hfs.
Qed.

(** At the end of [main], the path of every entry holds what a download of
    that entry alone would have left there, started from the disk [main]
    found: the threads may interleave at will. *)
Theorem file_as_if_downloaded_alone w0 r w' filename :
  rtc (steps E) (main_start E w0) (Done r w') →
  r = Ok tt →
  filename ∈ FILES →
  fs w' !! path_of filename = fs (run E (download_file filename) w0).2 !! path_of filename.
Proof. apply final_file_alone. Qed.

(** The disk [main] leaves does not depend on the schedule: two complete
    runs from the same start, in the same surroundings, end with the same
    files. *)
Theorem disk_independent_of_schedule w0 r1 w1 r2 w2 :
  rtc (steps E) (main_start E w0) (Done r1 w1) →
  rtc (steps E) (main_start E w0) (Done r2 w2) →
  r1 = r2 ∧ fs w1 = fs w2.
Proof.
  intros H1 H2.
  destruct (main_start_cases w0) as [(w & Hstart & _)|(e & Hstart & _)].
  2:{ rewrite Hstart in H1, H2. apply done_is_final in H1, H2. by simplify_eq. }
  assert (r1 = Ok tt ∧ r2 = Ok tt) as [-> ->].
  { rewrite Hstart in H1, H2.
    apply run_ends_by_join in H1 as [?|(? & ? & _ & -> & _)]; [done|].
    apply run_ends_by_join in H2 as [?|(? & ? & _ & -> & _)]; done. }
  split; [done|]. apply map_eq. intros path.
  destruct (decide (path ∈ map path_of FILES)) as [Hin|Hout].
  - change (map path_of FILES) with (path_of <$> FILES) in Hin.
    apply list_elem_of_fmap in Hin as (filename & -> & Hin).
    rewrite (final_file_alone w0 (Ok tt) w1 filename H1 eq_refl Hin).
    by rewrite (final_file_alone w0 (Ok tt) w2 filename H2 eq_refl Hin).
  - pose proof (foreign_path_kept w0 (Done (Ok tt) w1) path H1 Hout) as Hp1.
    pose proof (foreign_path_kept w0 (Done (Ok tt) w2) path H2 Hout) as Hp2.
    cbn [world_of] in Hp1, Hp2. by rewrite Hp1, Hp2.
Qed.

End pool_more.

Section main_more.
Import Fetcher.
Local Open Scope nat_scope.
Variable E : env.

(** A file whose URL or local path is refused is, after the whole run,
    what it was before [main] started: nothing is created, an older copy is
    kept, whatever the other downloads do. *)
Theorem refused_file_survives_run w0 r w' filename e :
  rtc (steps E) (main_start E w0) (Done r w') →
  r = Ok tt →
  filename ∈ FILES →
  urlopen E (request_of filename) = Err e
  ∨ (∃ response, urlopen E (request_of filename) = Ok response
                 ∧ disk_open E (path_of filename) = Some e) →
  fs w' !! path_of filename = fs w0 !! path_of filename.
Proof.
  intros H Hr Hin Hrefused.
  rewrite (final_file_alone E w0 r w' filename H Hr Hin).
  by rewrite (download_refused E filename e w0 Hrefused).
Qed.

(** When the output directory is missing and cannot be made, [main] ends on
    that exception at once: nothing is printed, requested or written, and
    no download is started. *)
Theorem makedirs_failure_stops_main w0 e s :
  os_path_exists w0 OUTPUT_DIR = false →
  makedirs E OUTPUT_DIR = Some e →
  rtc (steps E) (main_start E w0) s →
  s = Done (Err e) w0.
Proof.
  intros Hex Hmk H.
  assert (main_start E w0 = Done (Err e) w0) as Hstart.
  { unfold main_start, setup. by rewrite Hex, Hmk. }
  rewrite Hstart in H. by apply done_is_final in H.
Qed.

Lemma effect_console_dirs {X} (a : action X) w :
  dirs (effect E a w) = dirs w
  ∧ ∃ rest, console (effect E a w) = console w ++ rest.
Proof.
  destruct a as [line|req|path|r|path data]; simpl.
  - split; [done|]. by eexists.
  - split; [done|]. exists []. by rewrite app_nil_r.
  - destruct (disk_open E path); simpl; (split; [done|]); exists []; by rewrite app_nil_r.
  - split; [done|]. exists []. by rewrite app_nil_r.
  - destruct (disk_write E path) as [[? ?]|]; simpl; (split; [done|]); exists [];
      by rewrite app_nil_r.
Qed.

(** From the pool on, directories stay as they are and the console only
    grows at its end. *)
Lemma pool_keeps_dirs queue running resolved w1 s :
  rtc (steps E) (Pooling queue running resolved w1) s →
  dirs (world_of s) = dirs w1
  ∧ ∃ rest, console (world_of s) = console w1 ++ rest.
Proof.
  intros H.
  apply (pool_invariant E (λ s, dirs (world_of s) = dirs w1
                                ∧ ∃ rest, console (world_of s) = console w1 ++ rest) _ _ H).
  - simpl. split; [done|]. exists []. by rewrite app_nil_r.
  - intros s1 s2 _ [Hd (rest & Hc)] H12.
    inversion H12; subst; simpl in *; try (split; [done|]; by exists rest).
    + destruct (effect_console_dirs a w) as [Hd' (rest' & Hc')].
      split; [congruence|]. exists (rest ++ rest'). by rewrite Hc', Hc, <- app_assoc.
    + split; [done|]. exists (rest ++ [completed_line]). by rewrite Hc, <- app_assoc.
Qed.

(** An output directory that exists is never made again, so creating it
    cannot fail the run: [main] goes straight to its first line and the
    pool, can always be brought to its end, and no directory is added. *)
Theorem existing_directory_is_enough w0 s :
  os_path_exists w0 OUTPUT_DIR = true →
  rtc (steps E) (main_start E w0) s →
  dirs (world_of s) = dirs w0
  ∧ (∃ rest, console (world_of s) = console w0 ++ downloading_line :: rest)
  ∧ ∃ w', rtc (steps E) s (Done (Ok tt) w').
Proof.
  intros Hex H.
  assert (main_start E w0 = Pooling FILES [] [] (print downloading_line w0)) as Hstart.
  { unfold main_start, setup. by rewrite Hex. }
  rewrite Hstart in H.
  destruct (pool_keeps_dirs _ _ _ _ _ H) as [Hd (rest & Hc)]. simpl in Hd, Hc.
  split_and!; try done.
  - exists rest. by rewrite Hc, <- app_assoc.
  - destruct s as [queue running resolved w|r w].
    + apply pool_finishes.
    + apply run_ends_by_join in H as [?|(resolved & w' & _ & -> & ->)]; [done|].
      by eexists.
Qed.

(** A missing output directory is made before anything else: it is there
    from the pool on, and its line is the first [main] prints. *)
Theorem missing_directory_is_created w0 s :
  os_path_exists w0 OUTPUT_DIR = false →
  makedirs E OUTPUT_DIR = None →
  rtc (steps E) (main_start E w0) s →
  dirs (world_of s) = {[OUTPUT_DIR]} ∪ dirs w0
  ∧ os_path_exists (world_of s) OUTPUT_DIR = true
  ∧ ∃ rest, console (world_of s) = console w0 ++ created_line :: downloading_line :: rest.
Proof.
  intros Hex Hmk H.
  assert (main_start E w0 =
          Pooling FILES [] []
            (print downloading_line
               (print created_line
                  (World (fs w0) ({[OUTPUT_DIR]} ∪ dirs w0) (console w0) (requests w0)))))
    as Hstart.
  { unfold main_start, setup. by rewrite Hex, Hmk. }
  rewrite Hstart in H.
  destruct (pool_keeps_dirs _ _ _ _ _ H) as [Hd (rest & Hc)]. simpl in Hd, Hc.
  split_and!; try done.
  - unfold os_path_exists. rewrite Hd.
    rewrite (bool_decide_eq_true_2 (OUTPUT_DIR ∈ _)); [done|].
    apply elem_of_union. left. by apply elem_of_singleton.
  - exists rest. by rewrite Hc, <- !app_assoc.
Qed.

End main_more.

Section console_more.
Import Fetcher.
Local Open Scope nat_scope.
Variable E : env.

Lemma str_app_inj_r (s t u : string) : s +:+ u = t +:+ u → s = t.
Proof.
  revert t. induction s as [|a s IH]; intros [|b t] H; try done.
  - exfalso. apply (f_equal PyStr.len) in H. rewrite str_app_nil_l, str_len_app in H.
    unfold PyStr.len in H. simpl in H. lia.
  - exfalso. apply (f_equal PyStr.len) in H. rewrite str_app_nil_l, str_len_app in H.
    unfold PyStr.len in H. simpl in H. lia.
  - rewrite !str_app_cons in H. injection H as -> H. f_equal. by apply IH.
Qed.

Lemma starting_line_inj g h : starting_line g = starting_line h → g = h.
Proof.
  unfold starting_line. intros H. apply (inj (String.append "Starting: ")) in H.
  by apply str_app_inj_r in H.
Qed.

Lemma success_line_inj g h : success_line g = success_line h → g = h.
Proof. apply (inj (String.append _)). Qed.

Lemma total_pick (l : list string) f c :
  NoDup l → f ∈ l → total (λ g, if decide (g = f) then c else 0) l = c.
Proof.
  induction 1 as [|x l Hx Hnd IH]; intros Hf; [by apply elem_of_nil in Hf|].
  simpl. apply elem_of_cons in Hf as [->|Hf].
  - rewrite decide_True by done. rewrite total_zero; [lia|].
    apply Forall_forall. intros y Hy. rewrite decide_False; [done|]. by intros ->.
  - rewrite decide_False by (by intros ->). by rewrite IH.
Qed.

Lemma length_console_effect {X} (a : action X) w :
  length (console (effect E a w)) = length (console w) + is_any_print (Some_action a).
Proof.
  destruct a as [line|req|path|r|path data]; simpl.
  - by rewrite length_app.
  - lia.
  - destruct (disk_open E path); simpl; lia.
  - lia.
  - destruct (disk_write E path) as [[? ?]|]; simpl; lia.
Qed.

Lemma weight_any_print g : weight E is_any_print (download_file g) = 2.
Proof.
  unfold weight. destruct (download_file_script E g) as (middle & -> & Hmid).
  cbn [total is_any_print]. rewrite total_app. cbn [total is_any_print].
  rewrite total_zero; [done|].
  eapply Forall_impl; [exact Hmid|]. cbv beta. intros [X a] (_ & _ & H & _).
  destruct a as [line| | | |]; try done.
  specialize (H line). simpl in H. by rewrite decide_True in H.
Qed.

Lemma weight_start_line f g :
  weight E (is_print (starting_line f)) (download_file g)
  = if decide (g = f) then 1 else 0.
Proof.
  rewrite weight_print.
  rewrite (decide_False (P := result_line E g = starting_line f)).
  2:{ unfold result_line. destruct (first_error E g); intros H; vm_compute in H;
        discriminate. }
  destruct (decide (starting_line g = starting_line f)) as [H|H], (decide (g = f)) as [Hg|Hg];
    try done.
  - by apply starting_line_inj in H.
  - by subst.
Qed.

Lemma weight_success_line f g :
  weight E (is_print (success_line f)) (download_file g)
  = if decide (g = f) then (if decide (first_error E f = None) then 1 else 0) else 0.
Proof.
  rewrite weight_print.
  rewrite (decide_False (P := starting_line g = success_line f)).
  2:{ intros H. vm_compute in H. discriminate. }
  unfold result_line. destruct (decide (g = f)) as [->|Hg].
  - destruct (first_error E f) as [e|].
    + rewrite decide_False; [by rewrite decide_False|].
      intros H. vm_compute in H. discriminate.
    + by rewrite !decide_True.
  - destruct (first_error E g) as [e|].
    + rewrite decide_False; [done|]. intros H. vm_compute in H. discriminate.
    + rewrite decide_False; [done|]. intros H. by apply success_line_inj in H.
Qed.

(** What [main] prints before the pool is none of the lines of a download. *)
Lemma setup_lines_counted w0 w1 line :
  main_start E w0 = Pooling FILES [] [] w1 →
  line ≠ created_line → line ≠ downloading_line →
  count_occ string_dec (console w1) line = count_occ string_dec (console w0) line.
Proof.
  intros Hstart Hc Hd.
  destruct (main_start_cases E w0) as [(w & Hw & _ & _ & _ & Hcon)|(e & He & _)];
    [|congruence].
  rewrite Hw in Hstart. injection Hstart as <-. rewrite Hcon.
  rewrite !count_occ_app.
  destruct (os_path_exists w0 OUTPUT_DIR); cbn [count_occ];
    repeat (destruct (string_dec _ line) as [H|_]; [by subst|]); lia.
Qed.

(** At the end of [main] the success line of an entry has been printed
    once if none of its calls raised and not at all otherwise; when it has,
    the body the server sent is in the file. *)
Theorem success_line_is_truthful w0 r w' filename :
  rtc (steps E) (main_start E w0) (Done r w') →
  r = Ok tt →
  filename ∈ FILES →
  count_occ string_dec (console w') (success_line filename)
  = count_occ string_dec (console w0) (success_line filename)
    + (if decide (first_error E filename = None) then 1 else 0)
  ∧ (first_error E filename = None →
     ∃ data, urlopen E (request_of filename) = Ok (Response (Ok data))
             ∧ fs w' !! path_of filename = Some data).
Proof.
  intros H -> Hin. split.
  - destruct (main_start_cases E w0) as [(w1 & Hstart & _)|(e & Hstart & _)].
    2:{ rewrite Hstart in H. by apply done_is_final in H. }
    pose proof (setup_lines_counted w0 w1 (success_line filename) Hstart) as Hpre.
    rewrite Hstart in H.
    apply run_ends_by_join in H as [?|(resolved & w & H & _ & ->)]; [done|].
    cbn [print console]. rewrite count_occ_app. cbn [count_occ].
    destruct (string_dec completed_line (success_line filename)) as [Hc|_];
      [vm_compute in Hc; discriminate|].
    rewrite (drained_count E (is_print (success_line filename))
               (λ w, count_occ string_dec (console w) (success_line filename))
               w1 resolved w (@count_print_effect E (success_line filename)) H).
    rewrite Hpre.
    2:{ intros Hc. vm_compute in Hc. discriminate. }
    2:{ intros Hc. vm_compute in Hc. discriminate. }
    rewrite (total_ext _ (λ g, if decide (g = filename)
                               then (if decide (first_error E filename = None) then 1 else 0)
                               else 0)); [|intros g; apply weight_success_line].
    rewrite total_pick; [lia | apply FILES_NoDup | done].
  - intros Hok. destruct (first_error_None_healthy E filename Hok) as [data Hdata].
    exists data. split; [apply Hdata|].
    destruct (main_start_cases E w0) as [(w1 & Hstart & _)|(e & Hstart & _)];
      rewrite Hstart in H.
    + by apply (healthy_download_lands E FILES FILES_NoDup path_of_inj_FILES
                  filename data Hdata w1 (Ok tt) w').
    + by apply done_is_final in H.
Qed.

(** At the end of [main] every entry has printed its start line exactly
    once, and the console has grown by two lines per entry besides the
    lines of [main] itself. *)
Theorem two_lines_per_file w0 r w' :
  rtc (steps E) (main_start E w0) (Done r w') →
  r = Ok tt →
  length (console w')
  = length (console w0) + (if os_path_exists w0 OUTPUT_DIR then 2 else 3)
    + 2 * length FILES
  ∧ ∀ filename, filename ∈ FILES →
      count_occ string_dec (console w') (starting_line filename)
      = count_occ string_dec (console w0) (starting_line filename) + 1.
Proof.
  intros H ->.
  destruct (main_start_cases E w0) as [(w1 & Hstart & _ & _ & _ & Hcon)|(e & Hstart & _)].
  2:{ rewrite Hstart in H. by apply done_is_final in H. }
  pose proof (λ line, setup_lines_counted w0 w1 line Hstart) as Hpre.
  rewrite Hstart in H.
  apply run_ends_by_join in H as [?|(resolved & w & H & _ & ->)]; [done|].
  cbn [print console]. split.
  - rewrite length_app. cbn [length].
    rewrite (drained_count E is_any_print (λ w, length (console w)) w1 resolved w
               (@length_console_effect) H).
    rewrite (total_ext _ (λ _, 2)); [|intros g; apply weight_any_print].
    assert (∀ l : list string, total (λ _, 2) l = 2 * length l) as ->.
    { induction l as [|x l IH]; simpl; [done|]. rewrite IH. lia. }
    rewrite Hcon, !length_app.
    destruct (os_path_exists w0 OUTPUT_DIR); simpl; lia.
  - intros filename Hin. rewrite count_occ_app. cbn [count_occ].
    destruct (string_dec completed_line (starting_line filename)) as [Hc|_];
      [vm_compute in Hc; discriminate|].
    rewrite (drained_count E (is_print (starting_line filename))
               (λ w, count_occ string_dec (console w) (starting_line filename))
               w1 resolved w (@count_print_effect E (starting_line filename)) H).
    rewrite Hpre.
    2:{ intros Hc. vm_compute in Hc. discriminate. }
    2:{ intros Hc. vm_compute in Hc. discriminate. }
    rewrite (total_ext _ (λ g, if decide (g = filename) then 1 else 0));
      [|intros g; apply weight_start_line].
    rewrite total_indicator; [lia | apply FILES_NoDup | done].
Qed.

End console_more.

(** ** The further properties on the demo run *)

Section fetcher_more_instances.
Import Fetcher.
Local Open Scope nat_scope.

Lemma demo_final_head_first_done :
  demo_final_head_first = Done (Ok tt) (world_of demo_final_head_first).
Proof. vm_compute. reflexivity. Qed.

Lemma busy_final_done : busy_final = Done (Ok tt) (world_of busy_final).
Proof. vm_compute. reflexivity. Qed.

Lemma bash_downloaded :
  fs (run demo_env (download_file "tree-sitter-bash.wasm") busy_world).2
    !! "./tree-sitter-bash.wasm" = Some demo_body.
Proof.
  rewrite (successful_download demo_env "tree-sitter-bash.wasm" demo_body busy_world).
  - vm_compute. reflexivity.
  - split_and!; vm_compute; reflexivity.
Defined.

Lemma gone_url_keeps_old_copy :
  fs (run demo_env (download_file "tree-sitter-c.wasm") busy_world).2 = fs busy_world.
Proof.
  rewrite (refused_download_keeps_disk demo_env "tree-sitter-c.wasm"
             "HTTP Error 404: Not Found" busy_world).
  - reflexivity.
  - left. vm_compute. reflexivity.
Defined.

Lemma demo_midway_workers :
  match demo_midway with
  | Pooling _ running _ _ => length running ≤ 5
  | Done _ _ => True
  end.
Proof. apply (at_most_five_workers demo_env empty_world demo_midway), exec_rtc. Defined.

Lemma readme_untouched : fs (world_of busy_final) !! "README.md" = Some [Byte.x23].
Proof.
  rewrite (other_paths_untouched demo_env busy_world busy_final "README.md").
  - vm_compute. reflexivity.
  - apply exec_rtc.
  - apply (bool_decide_unpack _). vm_compute. exact I.
Defined.

Lemma zig_as_if_alone :
  fs (world_of busy_final) !! path_of "tree-sitter-zig.wasm" = Some demo_body.
Proof.
  rewrite (file_as_if_downloaded_alone demo_env busy_world (Ok tt) (world_of busy_final)
             "tree-sitter-zig.wasm").
  - vm_compute. reflexivity.
  - rewrite <- busy_final_done. apply exec_rtc.
  - reflexivity.
  - apply (bool_decide_unpack _). vm_compute. exact I.
Defined.

Lemma two_schedules_same_disk :
  fs (world_of demo_final) = fs (world_of demo_final_head_first).
Proof.
  refine (proj2 (disk_independent_of_schedule demo_env empty_world
                   (Ok tt) (world_of demo_final)
                   (Ok tt) (world_of demo_final_head_first) _ _)).
  - rewrite <- demo_final_done. apply exec_rtc.
  - rewrite <- demo_final_head_first_done. apply exec_rtc.
Defined.

Lemma old_copy_survives_run :
  fs (world_of busy_final) !! path_of "tree-sitter-c.wasm"
  = Some [Byte.x6f; Byte.x6c; Byte.x64].
Proof.
  rewrite (refused_file_survives_run demo_env busy_world (Ok tt) (world_of busy_final)
             "tree-sitter-c.wasm" "HTTP Error 404: Not Found").
  - vm_compute. reflexivity.
  - rewrite <- busy_final_done. apply exec_rtc.
  - reflexivity.
  - apply (bool_decide_unpack _). vm_compute. exact I.
  - left. vm_compute. reflexivity.
Defined.

Lemma readonly_run_stops :
  exec readonly_env (round_robin 3) (main_start readonly_env no_dir_world)
  = Done (Err "[Errno 30] Read-only file system") no_dir_world.
Proof.
  apply (makedirs_failure_stops_main readonly_env no_dir_world).
  - vm_compute. reflexivity.
  - reflexivity.
  - apply exec_rtc.
Defined.

Lemma demo_midway_dirs : dirs (world_of demo_midway) = dirs empty_world.
Proof.
  refine (proj1 (existing_directory_is_enough demo_env empty_world demo_midway _ _)).
  - vm_compute. reflexivity.
  - apply exec_rtc.
Defined.

Lemma directory_made_for_demo :
  os_path_exists
    (world_of (exec demo_env (round_robin 2) (main_start demo_env no_dir_world)))
    OUTPUT_DIR = true.
Proof.
  refine (proj1 (proj2 (missing_directory_is_created demo_env no_dir_world _ _ _ _))).
  - vm_compute. reflexivity.
  - reflexivity.
  - apply exec_rtc.
Defined.

Lemma bash_success_line_once :
  count_occ string_dec (console (world_of demo_final)) (success_line "tree-sitter-bash.wasm")
  = 1.
Proof.
  destruct (success_line_is_truthful demo_env empty_world (Ok tt) (world_of demo_final)
              "tree-sitter-bash.wasm") as [Hcount _].
  - rewrite <- demo_final_done. apply exec_rtc.
  - reflexivity.
  - apply (bool_decide_unpack _). vm_compute. exact I.
  - rewrite Hcount. vm_compute. reflexivity.
Defined.

Lemma demo_line_count : length (console (world_of demo_final)) = 74.
Proof.
  destruct (two_lines_per_file demo_env empty_world (Ok tt) (world_of demo_final))
    as [Hlen _].
  - rewrite <- demo_final_done. apply exec_rtc.
  - reflexivity.
  - rewrite Hlen. vm_compute. reflexivity.
Defined.

End fetcher_more_instances.
